(** * solid-three: the reconciliation host of the renderer, embedded in Rocq

    The development follows the renderer module: the path resolver [resolve], the
    attachment manager [attach]/[detach], the property applier [applyProps]
    and the host operations handed to [createRenderer] ([createElement],
    [setProperty], [insertNode], [removeNode], [getNextSibling], ...).

    The repository holds two revisions of the renderer.  Where they differ
    the definitions take a [revision] argument: [RevB] is the revision with
    the exported [renderer] object (the one [src/index.tsx] imports), [RevA]
    the earlier one with [render] and deferred disposal.

    JavaScript objects live in a heap [gmap loc obj]; tree nodes live in a
    second store [gmap nid node]; both are mutated in place by the code and
    are threaded explicitly here.  A thrown exception is an outcome [Throw]
    that carries the state reached when it was thrown.

    What the renderer calls but does not define (the constructors and
    methods of three.js, the attach functions of the user, the case
    mapping of the runtime) is a parameter, [library]; a concrete one,
    [Three.lib], runs the scenes.

    The catalogue is the object the code keeps: the module namespace of
    three.js in the earlier revision (no prototype, not writable), an
    object literal in the later one (inheriting from [Object.prototype],
    filled by [extend]).  The props of a node are visited in the order of
    [for ... in].

    Boundaries of the model: numbers are integers; strings are sequences
    of code units below 256; the properties of numbers, strings, booleans
    and functions read as [undefined]; own [constructor] properties and
    iterables other than arrays are left out; a tree node is never a graph
    object. *)

From Stdlib Require Import ZArith Ascii String.
From stdpp Require Import base strings list gmap.

Open Scope string_scope.
Open Scope list_scope.

(** ** Strings *)

Module Str.

Definition dash : ascii := "-"%char.

(** [key.includes('-')] *)
Fixpoint includes (c : ascii) (s : string) : bool :=
  match s with
  | EmptyString => false
  | String a s' => if Ascii.eqb a c then true else includes c s'
  end.

(** [key.split('-')]: never empty, [''.split('-')] is [['']]. *)
Fixpoint split (c : ascii) (s : string) : list string :=
  match s with
  | EmptyString => [EmptyString]
  | String a s' =>
      if Ascii.eqb a c then EmptyString :: split c s'
      else match split c s' with
           | seg :: rest => String a seg :: rest
           | [] => [String a EmptyString]
           end
  end.

Fixpoint join (c : ascii) (l : list string) : string :=
  match l with
  | [] => EmptyString
  | [s] => s
  | s :: rest => s +:+ String c (join c rest)
  end.

Definition is_digit (a : ascii) : bool :=
  let n := nat_of_ascii a in (48 <=? n)%nat && (n <=? 57)%nat.

Fixpoint all_digits (s : string) : bool :=
  match s with
  | EmptyString => true
  | String a s' => is_digit a && all_digits s'
  end.

(** [\d+]: one digit or more, nothing else. *)
Definition is_number (s : string) : bool :=
  match s with
  | EmptyString => false
  | _ => all_digits s
  end.

Fixpoint digits_value (acc : nat) (s : string) : nat :=
  match s with
  | EmptyString => acc
  | String a s' => digits_value (10 * acc + (nat_of_ascii a - 48)) s'
  end.

(** A property key that is an array index: canonical decimal, no leading
    zero.  (["007"] names an ordinary property, not element 7.) *)
Definition parse_index (s : string) : option nat :=
  match s with
  | EmptyString => None
  | String a s' =>
      if negb (all_digits s) then None
      else if Ascii.eqb a "0"%char then
        match s' with EmptyString => Some 0 | _ => None end
      else Some (digits_value 0 s)
  end.

(** [c.toUpperCase()] for a string [c] of one code unit, on the code
    units 0 to 255: the letters [a] to [z] and the lower-case letters of
    Latin-1 go to their capitals, the sharp s goes to [SS].  (The micro
    sign and the y with diaeresis, whose capitals are beyond unit 255, are
    left as they are; no scene uses them.) *)
Definition upper (a : ascii) : string :=
  let n := nat_of_ascii a in
  if (97 <=? n)%nat && (n <=? 122)%nat then String (ascii_of_nat (n - 32)) EmptyString
  else if (n =? 223)%nat then "SS"
  else if (224 <=? n)%nat && (n <=? 254)%nat && negb (n =? 247)%nat
       then String (ascii_of_nat (n - 32)) EmptyString
  else String a EmptyString.

(** [for (const prop in props)] visits the keys that are array indices
    first, in ascending order: a canonical decimal below 2^32 - 1. *)
Definition array_index (s : string) : option Z :=
  match parse_index s with
  | Some n => if (Z.of_nat n <? 4294967295)%Z then Some (Z.of_nat n) else None
  | None => None
  end.

End Str.

(** [INDEX_REGEX = /-\d+$/]: the key ends with a dash and an integer.
    [index_match key] is [Some prefix] when the regex matches, [prefix]
    being [key.replace(INDEX_REGEX, '')]. *)
Definition index_match (key : string) : option string :=
  let chain := Str.split Str.dash key in
  match chain with
  | [] | [_] => None
  | _ =>
      if Str.is_number (List.last chain EmptyString)
      then Some (Str.join Str.dash (removelast chain))
      else None
  end.

Definition INDEX_REGEX_test (key : string) : bool :=
  match index_match key with Some _ => true | None => false end.

Definition INDEX_REGEX_strip (key : string) : string :=
  match index_match key with Some p => p | None => key end.

(** ** Values and objects *)

Definition loc := nat.
Definition nid := nat.

(** Function values: a method found on a class prototype, or a closure
    supplied by the user (an [attach] function, the callback it returns). *)
Inductive fname :=
  | Method (cls : string) (m : string)
  | Closure (id : nat).

Inductive val :=
  | VUndef
  | VNull
  | VBool (b : bool)
  | VNum (n : Z)
  | VStr (s : string)
  | VRef (l : loc)
  | VFun (f : fname).

Global Instance fname_eq_dec : EqDecision fname.
Proof. solve_decision. Defined.
Global Instance val_eq_dec : EqDecision val.
Proof. solve_decision. Defined.

(** A class of the scene-graph library: the identity of its constructor
    ([c_name]), the classes on its prototype chain, itself included
    ([c_bases], what [instanceof] tests) and the methods the chain offers. *)
Record class := Class {
  c_name : string;
  c_bases : list string;
  c_methods : list string;
}.

Global Instance class_eq_dec : EqDecision class.
Proof. solve_decision. Defined.

(** A heap object: its class, its own properties, and for an array its
    elements. *)
Record obj := Obj {
  o_class : class;
  o_fields : gmap string val;
  o_elems : option (list val);
}.

Definition ObjectClass : class := Class "Object" ["Object"] [].
Definition ArrayClass : class := Class "Array" ["Array"; "Object"] [].

Definition plain (fs : gmap string val) : obj := Obj ObjectClass fs None.
Definition array (es : list val) : obj := Obj ArrayClass ∅ (Some es).

Abbreviation heap := (gmap loc obj).

(** JavaScript truthiness ([NaN] is not modelled: numbers are integers). *)
Definition truthy (v : val) : bool :=
  match v with
  | VUndef | VNull => false
  | VBool b => b
  | VNum n => negb (n =? 0)%Z
  | VStr s => negb (String.eqb s "")
  | VRef _ | VFun _ => true
  end.

Definition nullish (v : val) : bool :=
  match v with VUndef | VNull => true | _ => false end.

(** Errors the code can raise. *)
Inductive error :=
  | TypeError                     (* raised by the JavaScript runtime *)
  | PrimitiveWithoutObject        (* '"object" must be set when using primitives!' *)
  | NotInCatalogue (type : string) (* '... is not a part of the THREE catalog!' *)
  | TextNotAllowed                (* 'Text is not allowed in the tree!' *)
  | LibraryError (code : nat)     (* thrown inside a library method or a user closure *)
  | Dangling.                     (* a reference outside the store: no JavaScript counterpart *)

Global Instance error_eq_dec : EqDecision error.
Proof. solve_decision. Defined.

(** ** Property reads and writes *)

(** [o[k]] on a heap object: an element for an index key of an array, an
    own property, else a method of the prototype chain, else [undefined]. *)
Definition obj_get (o : obj) (k : string) : val :=
  match o_elems o, Str.parse_index k with
  | Some es, Some i => default VUndef (es !! i)
  | _, _ =>
      match o_fields o !! k with
      | Some v => v
      | None =>
          if bool_decide (k ∈ c_methods (o_class o))
          then VFun (Method (c_name (o_class o)) k)
          else VUndef
      end
  end.

(** [arr[i] = v]: in range it overwrites, past the end it extends (holes
    read as [undefined]). *)
Definition set_elem (es : list val) (i : nat) (v : val) : list val :=
  if bool_decide (i < length es) then <[i:=v]> es
  else es ++ replicate (i - length es) VUndef ++ [v].

Definition obj_set (o : obj) (k : string) (v : val) : obj :=
  match o_elems o, Str.parse_index k with
  | Some es, Some i => Obj (o_class o) (o_fields o) (Some (set_elem es i v))
  | _, _ => Obj (o_class o) (<[k:=v]> (o_fields o)) (o_elems o)
  end.

Definition obj_delete (o : obj) (k : string) : obj :=
  Obj (o_class o) (delete k (o_fields o)) (o_elems o).

(** [v[k]].  Reading through [undefined] or [null] is a TypeError; the
    properties of numbers, strings, booleans and functions are not
    modelled and read as [undefined]. *)
Definition get (h : heap) (v : val) (k : string) : error + val :=
  match v with
  | VUndef | VNull => inl TypeError
  | VRef l => match h !! l with
              | Some o => inr (obj_get o k)
              | None => inl Dangling
              end
  | _ => inr VUndef
  end.

(** [v[k] = x] in strict mode: a TypeError unless [v] is an object. *)
Definition put (h : heap) (v : val) (k : string) (x : val) : error + heap :=
  match v with
  | VRef l => match h !! l with
              | Some o => inr (<[l := obj_set o k x]> h)
              | None => inl Dangling
              end
  | _ => inl TypeError
  end.

(** [delete v[k]] *)
Definition del (h : heap) (v : val) (k : string) : error + heap :=
  match v with
  | VUndef | VNull => inl TypeError
  | VRef l => match h !! l with
              | Some o => inr (<[l := obj_delete o k]> h)
              | None => inl Dangling
              end
  | _ => inr h
  end.

(** [Array.isArray(v)] *)
Definition isArray (h : heap) (v : val) : bool :=
  match v with
  | VRef l => match h !! l with
              | Some o => bool_decide (is_Some (o_elems o))
              | None => false
              end
  | _ => false
  end.

(** [v instanceof THREE.<cname>] *)
Definition instanceOf (h : heap) (v : val) (cname : string) : bool :=
  match v with
  | VRef l => match h !! l with
              | Some o => bool_decide (cname ∈ c_bases (o_class o))
              | None => false
              end
  | _ => false
  end.

(** [target?.m], as a condition. *)
Definition has (h : heap) (target : val) (m : string) : bool :=
  match get h target m with
  | inr v => truthy v
  | inl _ => false
  end.

(** [v.constructor], compared by identity of the constructor.  Own
    [constructor] properties are not modelled. *)
Definition constructorOf (h : heap) (v : val) : error + string :=
  match v with
  | VUndef | VNull => inl TypeError
  | VBool _ => inr "Boolean"
  | VNum _ => inr "Number"
  | VStr _ => inr "String"
  | VFun _ => inr "Function"
  | VRef l => match h !! l with
              | Some o => inr (c_name (o_class o))
              | None => inl Dangling
              end
  end.

(** ** Path Resolver *)

(** [chain.reduce((acc, key) => acc[key], root)] *)
Fixpoint walk (h : heap) (acc : val) (chain : list string) : error + val :=
  match chain with
  | [] => inr acc
  | k :: rest =>
      match get h acc k with
      | inr v => walk h v rest
      | inl e => inl e
      end
  end.

Record resolved := Resolved { r_root : val; r_key : string; r_target : val }.

(** Resolves a potentially pierced key type against an object. *)
Definition resolve (h : heap) (root : val) (key : string) : error + resolved :=
  match get h root key with
  | inl e => inl e
  | inr target =>
      if negb (Str.includes Str.dash key) then inr (Resolved root key target)
      else
        (* Resolve pierced target *)
        let chain := Str.split Str.dash key in
        match walk h root chain with
        | inl e => inl e
        | inr target =>
            let key := List.last chain EmptyString in
            let chain := removelast chain in
            (* Switch root if atomic *)
            if negb (has h target "set") then
              match walk h root chain with
              | inl e => inl e
              | inr root => inr (Resolved root key target)
              end
            else inr (Resolved root key target)
        end
  end.

(** ** Outcomes: a result, or a thrown error, with the state reached *)

Inductive outcome (S A : Type) :=
  | Ret (a : A) (s : S)
  | Throw (e : error) (s : S).
Arguments Ret {S A} a s.
Arguments Throw {S A} e s.

Definition M (S A : Type) : Type := S -> outcome S A.

Definition ret {S A} (a : A) : M S A := fun s => Ret a s.
Definition throw {S A} (e : error) : M S A := fun s => Throw e s.
Definition bind {S A B} (m : M S A) (k : A -> M S B) : M S B :=
  fun s => match m s with
           | Ret a s' => k a s'
           | Throw e s' => Throw e s'
           end.

Notation "x <- m ;; k" := (bind m (fun x => k))
  (at level 100, m at next level, right associativity).
Notation "m ;;; k" := (bind m (fun _ => k))
  (at level 100, right associativity).

Definition final {S A} (o : outcome S A) : S :=
  match o with Ret _ s => s | Throw _ s => s end.

Definition returned {S A} (o : outcome S A) : bool :=
  match o with Ret _ _ => true | Throw _ _ => false end.

(** ** Tree nodes and the world *)

(** [Instance]: [props] keeps the order in which keys were first
    written; [for_in] below gives the order in which [for ... in] visits
    them. *)
Record node := Node {
  n_type : string;
  n_parent : option nid;
  n_children : list nid;
  n_object : val;
  n_props : list (string * val);
}.

(** What happened, in order: kept as ghost state to count constructions,
    calls and commits. *)
Inductive event :=
  | EvNew (n : nid) (c : class) (args : list val)
  | EvInitialProps (n : nid)
  | EvCall (f : fname) (this : val) (args : list val).

Global Instance event_eq_dec : EqDecision event.
Proof. solve_decision. Defined.

(** What a key of the catalogue holds: a constructor, or any other value,
    of which only the truthiness matters here ([new] on it is a
    TypeError).  The catalogue of the earlier revision is the whole
    namespace of three.js, constants and helper objects included; an
    [extend] can bind [undefined]. *)
Inductive entry :=
  | Constructor (c : class)
  | Other (truthy : bool).

Global Instance entry_eq_dec : EqDecision entry.
Proof. solve_decision. Defined.

Record world := World {
  w_heap : heap;
  w_nodes : gmap nid node;
  w_catalogue : gmap string entry;   (* the own properties of [catalogue] *)
  w_idle : list nid;   (* callbacks handed to requestIdleCallback, oldest first *)
  w_log : list event;
}.

Definition with_heap (h : heap) (w : world) : world :=
  World h (w_nodes w) (w_catalogue w) (w_idle w) (w_log w).
Definition with_nodes (ns : gmap nid node) (w : world) : world :=
  World (w_heap w) ns (w_catalogue w) (w_idle w) (w_log w).
Definition with_catalogue (c : gmap string entry) (w : world) : world :=
  World (w_heap w) (w_nodes w) c (w_idle w) (w_log w).
Definition with_idle (q : list nid) (w : world) : world :=
  World (w_heap w) (w_nodes w) (w_catalogue w) q (w_log w).
Definition with_log (l : list event) (w : world) : world :=
  World (w_heap w) (w_nodes w) (w_catalogue w) (w_idle w) l.

(** The scene-graph library and the user's closures: what the renderer
    calls but does not define.  They see and change the heap only; what
    they throw is theirs ([Raised]), never one of the renderer's errors.
    With them comes the case mapping of the runtime,
    [String.prototype.toUpperCase] on a string of one code unit. *)
Inductive lib_outcome (A : Type) :=
  | Done (a : A) (h : heap)
  | Raised (code : nat) (h : heap).
Arguments Done {A} a h.
Arguments Raised {A} code h.

Record library := Library {
  lib_new : class -> list val -> heap -> lib_outcome loc;
  lib_call : fname -> val -> list val -> heap -> lib_outcome val;
  lib_toUpperCase : ascii -> string;
}.

(** [props[key]] and [props[key] = value] on a node's props: a new key
    is stored after the others (the order of enumeration is [for_in]). *)
Fixpoint prop_get (props : list (string * val)) (key : string) : val :=
  match props with
  | [] => VUndef
  | (k, v) :: rest => if String.eqb k key then v else prop_get rest key
  end.

Fixpoint prop_set (props : list (string * val)) (key : string) (value : val)
  : list (string * val) :=
  match props with
  | [] => [(key, value)]
  | (k, v) :: rest =>
      if String.eqb k key then (k, value) :: rest
      else (k, v) :: prop_set rest key value
  end.

(** The order of [for (const prop in props)]: the keys that are array
    indices first, in ascending numeric order, then the other keys in the
    order in which they were first written. *)
Fixpoint insert_by_index (i : Z) (kv : string * val)
    (l : list (Z * (string * val))) : list (Z * (string * val)) :=
  match l with
  | [] => [(i, kv)]
  | (j, kv') :: rest =>
      if (i <=? j)%Z then (i, kv) :: l else (j, kv') :: insert_by_index i kv rest
  end.

Definition index_entries (props : list (string * val)) : list (Z * (string * val)) :=
  foldr (fun kv acc => match Str.array_index kv.1 with
                       | Some i => insert_by_index i kv acc
                       | None => acc
                       end) [] props.

Definition for_in (props : list (string * val)) : list (string * val) :=
  (index_entries props).*2
  ++ List.filter (fun kv => match Str.array_index kv.1 with
                            | Some _ => false
                            | None => true
                            end) props.

(** [array.indexOf(x)], [None] for -1. *)
Fixpoint indexOf {A} `{EqDecision A} (x : A) (l : list A) : option nat :=
  match l with
  | [] => None
  | y :: rest => if decide (y = x) then Some 0 else S <$> indexOf x rest
  end.

(** [array.splice(i, 1)] and [array.splice(i, 0, x)] for [0 <= i]. *)
Definition splice_remove {A} (i : nat) (l : list A) : list A :=
  take i l ++ drop (S i) l.
Definition splice_insert {A} (i : nat) (x : A) (l : list A) : list A :=
  take i l ++ x :: drop i l.

Section Host.

Context (L : library).

(** Converts camelCase primitives to PascalCase:
    [str.charAt(0).toUpperCase() + str.substring(1)]. *)
Definition toPascalCase (str : string) : string :=
  match str with
  | EmptyString => EmptyString
  | String a s => lib_toUpperCase L a +:+ s
  end.

(** *** Primitive steps on the world *)

Definition getNode (n : nid) : M world node :=
  fun w => match w_nodes w !! n with
           | Some nd => Ret nd w
           | None => Throw Dangling w
           end.

Definition modNode (n : nid) (f : node -> node) : M world unit :=
  fun w => match w_nodes w !! n with
           | Some nd => Ret () (with_nodes (<[n := f nd]> (w_nodes w)) w)
           | None => Throw Dangling w
           end.

Definition readH {A} (f : heap -> error + A) : M world A :=
  fun w => match f (w_heap w) with
           | inr a => Ret a w
           | inl e => Throw e w
           end.

Definition writeH (f : heap -> error + heap) : M world unit :=
  fun w => match f (w_heap w) with
           | inr h => Ret () (with_heap h w)
           | inl e => Throw e w
           end.

Definition askH {A} (f : heap -> A) : M world A :=
  fun w => Ret (f (w_heap w)) w.

Definition emit (e : event) : M world unit :=
  fun w => Ret () (with_log (w_log w ++ [e]) w).

(** Allocation of an object literal or an array literal. *)
Definition alloc (o : obj) : M world val :=
  fun w => let l := fresh (dom (w_heap w)) in
           Ret (VRef l) (with_heap (<[l := o]> (w_heap w)) w).

(** A call into the library or into a user closure. *)
Definition invoke (f : fname) (this : val) (args : list val) : M world val :=
  fun w =>
    let w := with_log (w_log w ++ [EvCall f this args]) w in
    match lib_call L f this args (w_heap w) with
    | Done v h => Ret v (with_heap h w)
    | Raised code h => Throw (LibraryError code) (with_heap h w)
    end.

(** [new target(...args)] *)
Definition construct (target : class) (args : list val) : M world loc :=
  fun w =>
    match lib_new L target args (w_heap w) with
    | Done l h => Ret l (with_heap h w)
    | Raised code h => Throw (LibraryError code) (with_heap h w)
    end.

(** [f(...args)] for a value [f]: a TypeError unless [f] is a function. *)
Definition apply (f : val) (this : val) (args : list val) : M world val :=
  match f with
  | VFun g => invoke g this args
  | _ => throw TypeError
  end.

(** [target.m(...args)] *)
Definition callMethod (target : val) (m : string) (args : list val) : M world val :=
  f <- readH (fun h => get h target m) ;;
  apply f target args.

(** [...value]: the elements of an array (other iterables are not modelled). *)
Definition spread (h : heap) (v : val) : error + list val :=
  match v with
  | VRef l => match h !! l with
              | Some o => match o_elems o with
                          | Some es => inr es
                          | None => inl TypeError
                          end
              | None => inl Dangling
              end
  | _ => inl TypeError
  end.

(** *** Attachment manager *)

(** Attaches an node to a parent via its [attach] prop. *)
Definition attach (parent child : nid) : M world unit :=
  p <- getNode parent ;;
  c <- getNode child ;;
  match prop_get (n_props c) "attach" with
  | VStr a =>
      (* If attaching into an array (foo-0), create one *)
      (if INDEX_REGEX_test a then
         let target := INDEX_REGEX_strip a in
         r <- readH (fun h => resolve h (n_object p) target) ;;
         cur <- readH (fun h => get h (r_root r) (r_key r)) ;;
         isarr <- askH (fun h => isArray h cur) ;;
         if negb isarr then
           arr <- alloc (array []) ;;
           writeH (fun h => put h (r_root r) (r_key r) arr)
         else ret ()
       else ret ()) ;;;
      r <- readH (fun h => resolve h (n_object p) a) ;;
      prev <- readH (fun h => get h (r_root r) (r_key r)) ;;
      writeH (fun h => put h (n_object c) "__previousAttach" prev) ;;;
      writeH (fun h => put h (r_root r) (r_key r) (n_object c))
  | VFun f =>
      undo <- invoke f VUndef [n_object p; n_object c] ;;
      writeH (fun h => put h (n_object c) "__previousAttach" undo)
  | _ => ret ()
  end.

(** Removes an node from a parent via its [attach] prop. *)
Definition detach (parent child : nid) : M world unit :=
  p <- getNode parent ;;
  c <- getNode child ;;
  match prop_get (n_props c) "attach" with
  | VStr a =>
      r <- readH (fun h => resolve h (n_object p) a) ;;
      prev <- readH (fun h => get h (n_object c) "__previousAttach") ;;
      writeH (fun h => put h (r_root r) (r_key r) prev)
  | VFun _ =>
      callMethod (n_object c) "__previousAttach" [n_object p; n_object c] ;;;
      ret ()
  | _ => ret ()
  end ;;;
  writeH (fun h => del h (n_object c) "__previousAttach").

(** *** Property applier *)

Inductive revision := RevA | RevB.

(** Internal instance props that shouldn't be written to objects *)
Definition RESERVED_PROPS (rev : revision) : list string :=
  match rev with
  | RevA => ["args"; "attach"; "object"]
  | RevB => ["args"; "object"; "dispose"; "attach"]
  end.

Definition reserved (rev : revision) (prop : string) : bool :=
  bool_decide (prop ∈ RESERVED_PROPS rev).

(** [target.constructor === value.constructor] *)
Definition sameConstructor (target value : val) : M world bool :=
  ct <- readH (fun h => constructorOf h target) ;;
  cv <- readH (fun h => constructorOf h value) ;;
  ret (String.eqb ct cv).

(** The tail of the chain, shared by both revisions:
    array spread, scalar shorthand, plain [set]. *)
Definition applySet (target value : val) : M world unit :=
  isarr <- askH (fun h => isArray h value) ;;
  if isarr then
    args <- readH (fun h => spread h value) ;;
    callMethod target "set" args ;;; ret ()
  else
    color <- askH (fun h => instanceOf h target "Color") ;;
    scalar <- askH (fun h => has h target "setScalar") ;;
    if negb color && scalar then
      (* Allow shorthand like scale={1} *)
      callMethod target "setScalar" [value] ;;; ret ()
    else
      callMethod target "set" [value] ;;; ret ().

(** The body of the loop of [applyProps] for a key that is not reserved. *)
Definition applyProp (rev : revision) (object : val) (prop : string) (value : val)
  : M world unit :=
  (* Resolve pierced props if able *)
  r <- readH (fun h => resolve h object prop) ;;
  let root := r_root r in
  let key := r_key r in
  let target := r_target r in
  settor <- askH (fun h => has h target "set") ;;
  match rev with
  | RevA =>
      if settor then
        same <- sameConstructor target value ;;
        if same then callMethod target "copy" [value] ;;; ret ()
        else applySet target value
      else writeH (fun h => put h root key value)
  | RevB =>
      if negb settor then writeH (fun h => put h root key value)
      else
        copy <- askH (fun h => has h target "copy") ;;
        same <- (if copy then sameConstructor target value else ret false) ;;
        if same then callMethod target "copy" [value] ;;; ret ()
        else applySet target value
  end.

(** Safely mutates a THREE element, respecting special JSX syntax. *)
Fixpoint applyProps (rev : revision) (object : val) (props : list (string * val))
  : M world unit :=
  match props with
  | [] => ret ()
  | (prop, value) :: rest =>
      (* Skip reserved keys *)
      if reserved rev prop then applyProps rev object rest
      else applyProp rev object prop value ;;; applyProps rev object rest
  end.

(** *** Catalogue *)

(** What every ordinary object inherits from [Object.prototype]. *)
Definition Object_prototype (key : string) : option entry :=
  if bool_decide (key = "constructor") then Some (Constructor ObjectClass)
  else if bool_decide (key ∈ ["__proto__"; "__defineGetter__"; "__defineSetter__";
                              "__lookupGetter__"; "__lookupSetter__";
                              "hasOwnProperty"; "isPrototypeOf";
                              "propertyIsEnumerable"; "toLocaleString";
                              "toString"; "valueOf"])
  then Some (Other true)
  else None.

(** [catalogue[key]].  The catalogue of the later revision is an object
    literal, [{}]: a key it does not own is looked up in
    [Object.prototype].  The catalogue of the earlier revision is the
    module namespace [import * as THREE], which has no prototype. *)
Definition catalogue_get (rev : revision) (catalogue : gmap string entry)
    (key : string) : option entry :=
  match catalogue !! key with
  | Some e => Some e
  | None => match rev with
            | RevA => None
            | RevB => Object_prototype key
            end
  end.

(** Extends the THREE catalogue, accepting an object of keys pointing to
    external classes: [Object.assign(catalogue, objects)], [objects] given
    by its own enumerable keys in order.  On the object literal of the
    later revision every key is assigned (an own key [__proto__], whose
    assignment would run the prototype setter, is outside the model).  The
    module namespace of the earlier revision cannot be written: the first
    assignment throws a TypeError and nothing is bound. *)
Definition extend (rev : revision) (objects : list (string * entry)) : M world unit :=
  match rev with
  | RevA =>
      match objects with
      | [] => ret ()
      | _ :: _ => throw TypeError
      end
  | RevB =>
      fun w => Ret () (with_catalogue
                         (foldl (fun c kv => <[kv.1 := kv.2]> c) (w_catalogue w) objects) w)
  end.

(** *** Host operations *)

Definition createElement (type : string) : M world nid :=
  args <- alloc (array []) ;;
  fun w =>
    let n := fresh (dom (w_nodes w)) in
    Ret n (with_nodes (<[n := Node type None [] VNull [("args", args)]]> (w_nodes w)) w).

Definition set_object (v : val) (nd : node) : node :=
  Node (n_type nd) (n_parent nd) (n_children nd) v (n_props nd).
Definition set_parent (p : option nid) (nd : node) : node :=
  Node (n_type nd) p (n_children nd) (n_object nd) (n_props nd).
Definition set_children (cs : list nid) (nd : node) : node :=
  Node (n_type nd) (n_parent nd) cs (n_object nd) (n_props nd).
Definition set_prop (key : string) (value : val) (nd : node) : node :=
  Node (n_type nd) (n_parent nd) (n_children nd) (n_object nd)
       (prop_set (n_props nd) key value).

Definition setProperty (rev : revision) (node : nid) (key : string) (value : val)
  : M world unit :=
  (* Write prop to node *)
  modNode node (set_prop key value) ;;;
  (* If at runtime, apply prop directly to the object *)
  nd <- getNode node ;;
  if truthy (n_object nd) then applyProps rev (n_object nd) [(key, value)]
  else ret ().

(** The first half of [insertNode], "create object on first commit", in
    its three blocks. *)

(** [...(child.props.args ?? [])] *)
Definition declared_args (h : heap) (c : node) : error + list val :=
  match prop_get (n_props c) "args" with
  | VUndef | VNull => inr []
  | a => spread h a
  end.

(** Link the object of a primitive, or create the object from the catalogue. *)
Definition instantiate (rev : revision) (child : nid) : M world unit :=
  c <- getNode child ;;
  if String.eqb (n_type c) "primitive" then
    (* Validate primitive *)
    if negb (truthy (prop_get (n_props c) "object"))
    then throw PrimitiveWithoutObject
    else
      (* Link object *)
      modNode child (set_object (prop_get (n_props c) "object"))
  else
    (* Validate target *)
    fun w =>
      match catalogue_get rev (w_catalogue w) (toPascalCase (n_type c)) with
      | None | Some (Other false) => Throw (NotInCatalogue (n_type c)) w
      | Some (Other true) =>
          (* [new] evaluates its arguments, then finds no constructor *)
          (readH (fun h => declared_args h c) ;;; throw TypeError) w
      | Some (Constructor target) =>
          (* Create object *)
          (args <- readH (fun h => declared_args h c) ;;
           l <- construct target args ;;
           modNode child (set_object (VRef l)) ;;;
           emit (EvNew child target args)) w
      end.

(** Auto-attach geometry and materials *)
Definition autoAttach (child : nid) : M world unit :=
  c <- getNode child ;;
  if bool_decide (prop_get (n_props c) "attach" = VUndef) then
    geometry <- askH (fun h => instanceOf h (n_object c) "BufferGeometry") ;;
    material <- askH (fun h => instanceOf h (n_object c) "Material") ;;
    if geometry then modNode child (set_prop "attach" (VStr "geometry"))
    else if material then modNode child (set_prop "attach" (VStr "material"))
    else ret ()
  else ret ().

(** Set initial props *)
Definition initialProps (rev : revision) (child : nid) : M world unit :=
  c <- getNode child ;;
  emit (EvInitialProps child) ;;;
  applyProps rev (n_object c) (for_in (n_props c)).

Definition commit (rev : revision) (child : nid) : M world unit :=
  instantiate rev child ;;;
  autoAttach child ;;;
  initialProps rev child.

(** [parent.object.children], as the list it holds. *)
Definition graphChildren (h : heap) (object : val) : error + list val :=
  match get h object "children" with
  | inl e => inl e
  | inr a => spread h a
  end.

(** Replaces the contents of the array [parent.object.children] in place. *)
Definition setGraphChildren (h : heap) (object : val) (es : list val) : error + heap :=
  match get h object "children" with
  | inl e => inl e
  | inr (VRef a) =>
      match h !! a with
      | Some o => match o_elems o with
                  | Some _ => inr (<[a := Obj (o_class o) (o_fields o) (Some es)]> h)
                  | None => inl TypeError
                  end
      | None => inl Dangling
      end
  | inr _ => inl TypeError
  end.

(** [child.object.dispose?.()] *)
Definition disposeObject (child : nid) : M world unit :=
  c <- getNode child ;;
  f <- readH (fun h => get h (n_object c) "dispose") ;;
  if nullish f then ret () else apply f (n_object c) [] ;;; ret ().

(** [parent.children.indexOf(beforeChild.object)] of the earlier revision
    looks for a graph object among tree nodes.  Nodes and graph objects are
    different things (here: they live in different stores), so nothing is
    found and the result is -1. *)
Definition indexOfObjectAmongNodes (children : list nid) (object : val) : option nat :=
  None.

(** The three blocks of [removeNode]. *)

(** Unlink child node *)
Definition unlinkChild (parent child : nid) : M world unit :=
  modNode child (set_parent None) ;;;
  p <- getNode parent ;;
  match indexOf child (n_children p) with
  | Some childIndex =>
      modNode parent (set_children (splice_remove childIndex (n_children p)))
  | None => ret ()
  end.

(** Remove object from parent *)
Definition removeObject (rev : revision) (parent child : nid) : M world unit :=
  p <- getNode parent ;;
  c <- getNode child ;;
  if truthy (prop_get (n_props c) "attach") then detach parent child
  else
    pg <- askH (fun h => instanceOf h (n_object p) "Object3D") ;;
    cg <- askH (fun h => instanceOf h (n_object c) "Object3D") ;;
    match rev with
    | RevA => if cg then callMethod (n_object p) "remove" [n_object c] ;;; ret ()
              else ret ()
    | RevB => if pg && cg then callMethod (n_object p) "remove" [n_object c] ;;; ret ()
              else ret ()
    end.

(** [child.props.dispose !== null && child.type !== 'primitive'] *)
Definition disposable (c : node) : bool :=
  negb (bool_decide (prop_get (n_props c) "dispose" = VNull))
  && negb (String.eqb (n_type c) "primitive").

(** Safely dispose of object *)
Definition disposeChild (rev : revision) (child : nid) : M world unit :=
  c <- getNode child ;;
  match rev with
  | RevA =>
      (* defer since PMREM disposal is blocking *)
      if negb (String.eqb (n_type c) "primitive")
      then fun w => Ret () (with_idle (w_idle w ++ [child]) w)
      else ret ()
  | RevB =>
      if disposable c then disposeObject child else ret ()
  end.

Definition removeNode (rev : revision) (parent child : nid) : M world unit :=
  unlinkChild parent child ;;;
  removeObject rev parent child ;;;
  disposeChild rev child.

(** The idle callback queued by the earlier revision: [() => child.object.dispose?.()]. *)
Definition runIdle : M world unit :=
  fun w => match w_idle w with
           | [] => Ret () w
           | child :: rest => disposeObject child (with_idle rest w)
           end.

(** The second half of [insertNode]: link nodes, then attach or add to
    the graph.  [this.removeNode] of the later revision is the host's own
    [removeNode], [this] being the object the operations are defined in. *)
Definition place (rev : revision) (parent child : nid) (beforeChild : option nid)
  : M world unit :=
  (* Link nodes *)
  modNode child (set_parent (Some parent)) ;;;
  p <- getNode parent ;;
  modNode parent (set_children (n_children p ++ [child])) ;;;
  p <- getNode parent ;;
  c <- getNode child ;;
  (* Add or manually splice child *)
  if truthy (prop_get (n_props c) "attach") then attach parent child
  else
    pg <- askH (fun h => instanceOf h (n_object p) "Object3D") ;;
    cg <- askH (fun h => instanceOf h (n_object c) "Object3D") ;;
    match rev with
    | RevA =>
        if cg then
          (* If a previous child is specified, manually insert before it.
             Otherwise, use regular Object3D#add *)
          match beforeChild with
          | Some b =>
              writeH (fun h => put h (n_object c) "parent" (n_object p)) ;;;
              es <- readH (fun h => graphChildren h (n_object p)) ;;
              bn <- getNode b ;;
              let start :=
                match indexOfObjectAmongNodes (n_children p) (n_object bn) with
                | Some i => i
                | None => length es - 1   (* splice(-1, ...) counts from the end *)
                end in
              writeH (fun h => setGraphChildren h (n_object p)
                                 (splice_insert start (n_object c) es)) ;;;
              callMethod (n_object c) "dispatchEvent" [VStr "added"] ;;; ret ()
          | None => callMethod (n_object p) "add" [n_object c] ;;; ret ()
          end
        else ret ()
    | RevB =>
        if pg && cg then
          bobj <- (match beforeChild with
                   | Some b => bn <- getNode b ;; ret (n_object bn)
                   | None => ret VUndef
                   end) ;;
          es <- readH (fun h => graphChildren h (n_object p)) ;;
          match indexOf bobj es with
          | Some objectIndex =>
              (match beforeChild with
               | Some b => removeNode rev parent b
               | None => throw TypeError
               end) ;;;
              writeH (fun h => put h (n_object c) "parent" (n_object p)) ;;;
              es <- readH (fun h => graphChildren h (n_object p)) ;;
              writeH (fun h => setGraphChildren h (n_object p)
                                 (splice_insert objectIndex (n_object c) es)) ;;;
              callMethod (n_object c) "dispatchEvent" [VStr "added"] ;;; ret ()
          | None => callMethod (n_object p) "add" [n_object c] ;;; ret ()
          end
        else ret ()
    end.

Definition insertNode (rev : revision) (parent child : nid) (beforeChild : option nid)
  : M world unit :=
  c <- getNode child ;;
  (* Create object on first commit *)
  (if negb (truthy (n_object c)) then commit rev child else ret ()) ;;;
  place rev parent child beforeChild.

Definition getParentNode (node : nid) : M world (option nid) :=
  nd <- getNode node ;; ret (n_parent nd).

Definition getFirstChild (node : nid) : M world (option nid) :=
  nd <- getNode node ;; ret (n_children nd !! 0).

Definition getNextSibling (node : nid) : M world (option nid) :=
  nd <- getNode node ;;
  match n_parent nd with
  | None => throw TypeError
  | Some parent =>
      p <- getNode parent ;;
      match indexOf node (n_children p) with
      | Some index => ret (n_children nd !! (index + 1))
      | None => ret (n_children nd !! 0)
      end
  end.

Definition createTextNode : M world nid := throw TextNotAllowed.
Definition replaceText : M world unit := ret ().
Definition isTextNode (node : nid) : bool := false.

End Host.

(** ** A concrete library: a few classes of three.js

    Used to run the renderer on concrete scenes.  [Object3D#add] and
    [Object3D#remove] follow three.js; the math classes keep their
    components in the properties [x] and [y]. *)

Module Three.

Definition Object3D : class :=
  Class "Object3D" ["Object3D"; "Object"] ["add"; "remove"; "dispatchEvent"].
Definition Mesh : class :=
  Class "Mesh" ["Mesh"; "Object3D"; "Object"] ["add"; "remove"; "dispatchEvent"].
Definition GridHelper : class :=
  Class "GridHelper" ["GridHelper"; "Object3D"; "Object"]
        ["add"; "remove"; "dispatchEvent"; "dispose"].
Definition Vector2 : class :=
  Class "Vector2" ["Vector2"; "Object"] ["set"; "setScalar"; "copy"].
Definition Color : class :=
  Class "Color" ["Color"; "Object"] ["set"; "setScalar"; "copy"].
Definition Layers : class :=
  Class "Layers" ["Layers"; "Object"] ["set"].
Definition BufferGeometry : class :=
  Class "BufferGeometry" ["BufferGeometry"; "Object"] ["copy"; "dispose"].
Definition Material : class :=
  Class "Material" ["Material"; "Object"] ["copy"; "dispose"].

(** [new C(...args)]: graph objects start with no parent and an empty
    child list, math objects with the components given. *)
Definition new (c : class) (args : list val) (h : heap) : lib_outcome loc :=
  let l := fresh (dom h) in
  if bool_decide ("Object3D" ∈ c_bases c) then
    let a := fresh ({[l]} ∪ dom h) in
    Done l (<[a := array []]>
            (<[l := Obj c {["parent" := VNull; "children" := VRef a]} None]> h))
  else
    Done l (<[l := Obj c {["x" := default VUndef (args !! 0);
                          "y" := default VUndef (args !! 1)]} None]> h).

Definition children_of (h : heap) (this : val) : list val :=
  match graphChildren h this with inr es => es | inl _ => [] end.

Definition set_children_of (h : heap) (this : val) (es : list val) : heap :=
  match setGraphChildren h this es with inr h' => h' | inl _ => h end.

Definition put' (h : heap) (v : val) (k : string) (x : val) : heap :=
  match put h v k x with inr h' => h' | inl _ => h end.

Definition get' (h : heap) (v : val) (k : string) : val :=
  match get h v k with inr x => x | inl _ => VUndef end.

(** [Object3D#remove(object)] *)
Definition remove (this object : val) (h : heap) : heap :=
  match indexOf object (children_of h this) with
  | Some index =>
      let h := put' h object "parent" VNull in
      set_children_of h this (splice_remove index (children_of h this))
  | None => h
  end.

(** [Object3D#add(object)] *)
Definition add (this object : val) (h : heap) : heap :=
  if bool_decide (object = this) then h
  else if instanceOf h object "Object3D" then
    let h := match get' h object "parent" with
             | VNull => h
             | old => remove old object h
             end in
    let h := put' h object "parent" this in
    set_children_of h this (children_of h this ++ [object])
  else h.

(** Closure 0 is the attach function
    [(parent, self) => { parent.slot = self; return () => { parent.slot = undefined } }],
    closure 1 the function it returns; closure 2 is an attach function
    that installs [self] the same way and returns a callback that does
    nothing. *)
Definition call (f : fname) (this : val) (args : list val) (h : heap)
  : lib_outcome val :=
  let a0 := default VUndef (args !! 0) in
  let a1 := default VUndef (args !! 1) in
  match f with
  | Method _ "add" => Done this (add this a0 h)
  | Method _ "remove" => Done this (remove this a0 h)
  | Method _ "set" => Done this (put' (put' h this "x" a0) this "y" a1)
  | Method _ "setScalar" => Done this (put' (put' h this "x" a0) this "y" a0)
  | Method _ "copy" =>
      Done this (put' (put' h this "x" (get' h a0 "x")) this "y" (get' h a0 "y"))
  | Method _ _ => Done VUndef h
  | Closure 0 => Done (VFun (Closure 1)) (put' h a0 "slot" a1)
  | Closure 1 => Done VUndef (put' h a0 "slot" VUndef)
  | Closure 2 => Done (VFun (Closure 3)) (put' h a0 "slot" a1)
  | Closure _ => Done VUndef h
  end.

Definition lib : library := Library new call Str.upper.

Definition catalogue : gmap string entry :=
  list_to_map [("Object3D", Constructor Object3D); ("Mesh", Constructor Mesh);
               ("GridHelper", Constructor GridHelper);
               ("Vector2", Constructor Vector2); ("Color", Constructor Color);
               ("BufferGeometry", Constructor BufferGeometry);
               ("Material", Constructor Material)].

End Three.

(** Runs a sequence of steps and keeps the world, whether it returned or threw. *)
Definition exec {A} (m : M world A) (w : world) : world := final (m w).

(** * Vocabulary of the properties *)

(** ** Frames *)

(** The two errors the renderer itself raises at commit. *)
Definition host_error (e : error) : bool :=
  match e with
  | PrimitiveWithoutObject | NotInCatalogue _ => true
  | _ => false
  end.

(** [ok R m]: from any world, [m] ends (by return or by throw) in a world
    related by [R] to the one it started from, and what it throws is not
    one of the renderer's commit errors. *)
Definition ok {A} (R : world -> world -> Prop) (m : M world A) : Prop :=
  forall w, match m w with
            | Ret _ w' => R w w'
            | Throw e w' => R w w' /\ host_error e = false
            end.

(** A reader of the heap whose failures are runtime errors. *)
Definition benign {A} (f : heap -> error + A) : Prop :=
  forall h e, f h = inl e -> host_error e = false.

(** A change of a node that leaves its object and its type alone. *)
Definition tidy (f : node -> node) : Prop :=
  forall nd, n_object (f nd) = n_object nd /\ n_type (f nd) = n_type nd.

(** The tree is untouched. *)
Definition keeps_nodes (w w' : world) : Prop := w_nodes w' = w_nodes w.

Definition is_new (n : nid) (e : event) : bool :=
  match e with EvNew m _ _ => bool_decide (m = n) | _ => false end.

Definition is_initial (n : nid) (e : event) : bool :=
  match e with EvInitialProps m => bool_decide (m = n) | _ => false end.

(** How many objects were constructed for node [n], and how many times its
    initial props were applied. *)
Definition constructions (n : nid) (w : world) : nat :=
  length (List.filter (is_new n) (w_log w)).

Definition initial_applications (n : nid) (w : world) : nat :=
  length (List.filter (is_initial n) (w_log w)).

(** Every node keeps its object and its type, nothing is constructed and
    no initial props are applied. *)
Definition keeps_objects (w w' : world) : Prop :=
  (forall m nd, w_nodes w !! m = Some nd ->
     exists nd', w_nodes w' !! m = Some nd' /\
                 n_object nd' = n_object nd /\ n_type nd' = n_type nd) /\
  (forall n, constructions n w' = constructions n w /\
             initial_applications n w' = initial_applications n w).

(** ** Runs of the host *)

(** What the diffing engine can ask of the host. *)
Inductive op :=
  | Create (type : string)
  | SetProperty (node : nid) (key : string) (value : val)
  | Insert (parent child : nid) (beforeChild : option nid)
  | Remove (parent child : nid)
  | Extend (objects : list (string * entry))
  | Idle.





(** The object of a node, if the node exists. *)
Definition object_of (w : world) (n : nid) : option val :=
  n_object <$> w_nodes w !! n.

(** The relation that relates any two worlds: [ok any_world m] says only
    that [m] never throws one of the renderer's commit errors. *)
Definition any_world (w w' : world) : Prop := True.

(** ** Commit *)

(** The world right after the object of [child] was constructed: the
    heap is the one the constructor left, the node holds the object the
    constructor returned, the construction is logged. *)
Definition constructed (child : nid) (nd : node) (target : class) (args : list val)
    (l : loc) (h : heap) (w : world) : world :=
  with_log (w_log w ++ [EvNew child target args])
    (with_nodes (<[child := set_object (VRef l) nd]> (w_nodes w)) (with_heap h w)).

(** The world right after the object of a primitive was linked. *)
Definition linked_primitive (child : nid) (nd : node) (w : world) : world :=
  with_nodes (<[child := set_object (prop_get (n_props nd) "object") nd]> (w_nodes w)) w.


(** The two failure cases of a commit: a primitive without its object,
    and a type whose capitalised name the catalogue lookup finds nothing
    truthy for. *)
Definition missing_object (nd : node) : bool :=
  String.eqb (n_type nd) "primitive"
  && negb (truthy (prop_get (n_props nd) "object")).

Definition unknown_type (L : library) (rev : revision) (w : world) (nd : node) : bool :=
  negb (String.eqb (n_type nd) "primitive")
  && match catalogue_get rev (w_catalogue w) (toPascalCase L (n_type nd)) with
     | None | Some (Other false) => true
     | Some _ => false
     end.

(** The calls of a dispose routine that were made. *)
Definition dispose_calls (w : world) : list event :=
  List.filter (fun e => match e with
                        | EvCall (Method _ "dispose") _ _ => true
                        | _ => false
                        end) (w_log w).

(** ** Property applier *)


(** *** The priority of strategies, as the specification words it *)

(** The five ways of writing a property. *)
Inductive strategy :=
  | Assign      (* plain assignment [root[key] = value] *)
  | Copy        (* [target.copy(value)] *)
  | SetSpread   (* [target.set(...value)] *)
  | SetScalar   (* [target.setScalar(value)] *)
  | SetValue.   (* [target.set(value)] *)

(** "The value has the exact same constructor as the target"; a value
    without constructor ([null], [undefined]) has not. *)
Definition same_constructor (h : heap) (target value : val) : bool :=
  match constructorOf h target, constructorOf h value with
  | inr ct, inr cv => String.eqb ct cv
  | _, _ => false
  end.

(** The priority stated by the specification (4.2, steps 2 to 6). *)
Definition spec_strategy (h : heap) (target value : val) : strategy :=
  if negb (has h target "set") then Assign
  else if has h target "copy" && same_constructor h target value then Copy
  else if isArray h value then SetSpread
  else if negb (instanceOf h target "Color") && has h target "setScalar" then SetScalar
  else SetValue.

(** What each strategy does. *)
Definition perform (L : library) (s : strategy) (r : resolved) (value : val)
  : M world unit :=
  match s with
  | Assign => writeH (fun h => put h (r_root r) (r_key r) value)
  | Copy => callMethod L (r_target r) "copy" [value] ;;; ret ()
  | SetSpread =>
      args <- readH (fun h => spread h value) ;;
      callMethod L (r_target r) "set" args ;;; ret ()
  | SetScalar => callMethod L (r_target r) "setScalar" [value] ;;; ret ()
  | SetValue => callMethod L (r_target r) "set" [value] ;;; ret ()
  end.

(** Whether the constructors are compared for a target with a settor: the
    later revision asks first whether the target can copy, the earlier
    one does not ask. *)
Definition compares (rev : revision) (h : heap) (target : val) : bool :=
  match rev with
  | RevA => true
  | RevB => has h target "copy"
  end.

(** The priority each revision follows: the stated one, the copy being
    chosen on equal constructors whenever they are compared. *)
Definition priority (rev : revision) (h : heap) (target value : val) : strategy :=
  if negb (has h target "set") then Assign
  else if compares rev h target && same_constructor h target value then Copy
  else if isArray h value then SetSpread
  else if negb (instanceOf h target "Color") && has h target "setScalar" then SetScalar
  else SetValue.

(** The comparison of constructors can be made: the constructors are not
    compared, or the value has a constructor. *)
Definition comparable (rev : revision) (h : heap) (target value : val) : bool :=
  negb (has h target "set" && compares rev h target)
  || match constructorOf h value with inr _ => true | inl _ => false end.

(** ** Tree and graph positions *)

(** Next sibling as the specification words it: the node after [node] in
    the children of its parent. *)
Definition positional_next (w : world) (node : nid) : option nid :=
  nd ← w_nodes w !! node;
  parent ← n_parent nd;
  p ← w_nodes w !! parent;
  index ← indexOf node (n_children p);
  n_children p !! (index + 1).

(** The graph children of the object of a node. *)
Definition graph (w : world) (n : nid) : option (list val) :=
  nd ← w_nodes w !! n;
  match graphChildren (w_heap w) (n_object nd) with
  | inr es => Some es
  | inl _ => None
  end.

(** * Scenes *)

(** The heaps and worlds the properties are run on. *)

(** Object 0 holds object 1 under [a], which holds under [b] a [Vector2]
    (with a settor) in the first heap, a number in the second. *)
Definition pierced_heap : heap :=
  {[ 0 := plain {["a" := VRef 1]};
     1 := plain {["b" := VRef 2]};
     2 := Obj Three.Vector2 ∅ None ]}.

Definition atomic_heap : heap :=
  {[ 0 := plain {["a" := VRef 1]};
     1 := plain {["b" := VNum 7]} ]}.

(** A root container holding a scene, as [src/index.tsx] builds it. *)
Definition root_world : world :=
  World {[ 0 := Obj Three.Object3D {["parent" := VNull; "children" := VRef 1]} None;
           1 := array [] ]}
        {[ 0 := Node "" None [] (VRef 0) [] ]}
        Three.catalogue [] [].

(** The same after [createElement('mesh')]: node 1, not yet inserted. *)
Definition mesh_created : world := exec (createElement "mesh") root_world.

(** A primitive without its object, and an element of unknown type, both
    created and waiting under the root. *)
Definition primitive_created : world :=
  exec (createElement "primitive") root_world.

Definition unknown_created : world :=
  exec (createElement "fooBar") root_world.

(** An element whose type is the name of a property every object
    inherits. *)
Definition inherited_created : world :=
  exec (createElement "__proto__") root_world.

(** A mesh created under the root and given the prop [foo-bar] before its
    first insert. *)
Definition malformed_prop : world :=
  exec (n <- createElement "mesh" ;;
        setProperty Three.lib RevB n "foo-bar" (VNum 1)) root_world.

(** A mesh created under the root and given the props [foo-bar] and
    then [0] before its first insert. *)
Definition indexed_prop : world :=
  exec (n <- createElement "mesh" ;;
        setProperty Three.lib RevB n "foo-bar" (VNum 1) ;;;
        setProperty Three.lib RevB n "0" (VNum 5)) root_world.

(** Two meshes inserted under the root: the second is no child of the first. *)
Definition two_meshes : world :=
  exec (p <- createElement "mesh" ;;
        insertNode Three.lib RevB 0 p None ;;;
        c <- createElement "mesh" ;;
        insertNode Three.lib RevB 0 c None) root_world.

(** A grid helper (which has a dispose routine) inserted under the root,
    and the same once unlinked and removed from the graph. *)
Definition grid_inserted : world :=
  exec (g <- createElement "gridHelper" ;;
        insertNode Three.lib RevB 0 g None) root_world.

Definition grid_unlinked : world :=
  exec (unlinkChild 0 1 ;;; removeObject Three.lib RevB 0 1) grid_inserted.

(** A grid helper inserted under the root by either revision, declared
    with [dispose={null}] or without. *)
Definition grid (rev : revision) (suppressed : bool) : world :=
  exec (g <- createElement "gridHelper" ;;
        (if suppressed then setProperty Three.lib rev g "dispose" VNull else ret ()) ;;;
        insertNode Three.lib rev 0 g None) root_world.

(** The earlier revision: a grid helper declared with [foo-bar] and
    then [dispose={null}], whose first insert threw. *)
Definition grid_failed_commit : world :=
  exec (g <- createElement "gridHelper" ;;
        setProperty Three.lib RevA g "foo-bar" (VNum 1) ;;;
        setProperty Three.lib RevA g "dispose" VNull ;;;
        insertNode Three.lib RevA 0 g None) root_world.

(** An object that holds itself under [self]. *)
Definition self_world : world :=
  World {[ 0 := plain {["self" := VRef 0]} ]} ∅ Three.catalogue [] [].

(** An object whose [position] is a [Vector2], and a second [Vector2]. *)
Definition positioned : world :=
  World {[ 0 := plain {["position" := VRef 1]};
           1 := Obj Three.Vector2 {["x" := VNum 0; "y" := VNum 0]} None;
           2 := Obj Three.Vector2 {["x" := VNum 5; "y" := VNum 6]} None ]}
        ∅ Three.catalogue [] [].

(** A group (node 0) with two meshes (1 and 2); mesh 1 has two children
    of its own (3 and 4). *)
Definition family : world :=
  World ∅
        {[ 0 := Node "group" None [1; 2] VNull [];
           1 := Node "mesh" (Some 0) [3; 4] VNull [];
           2 := Node "mesh" (Some 0) [] VNull [];
           3 := Node "mesh" (Some 1) [] VNull [];
           4 := Node "mesh" (Some 1) [] VNull [] ]}
        Three.catalogue [] [].

(** A mesh (node 1) under the root with three meshes under it (nodes 2, 3
    and 4, objects 6, 9 and 12), and a fifth mesh (node 5) created. *)
Definition three_children (rev : revision) : world :=
  exec (p <- createElement "mesh" ;; insertNode Three.lib rev 0 p None ;;;
        a <- createElement "mesh" ;; insertNode Three.lib rev p a None ;;;
        b <- createElement "mesh" ;; insertNode Three.lib rev p b None ;;;
        c <- createElement "mesh" ;; insertNode Three.lib rev p c None ;;;
        createElement "mesh" ;;; ret ()) root_world.

(** A mesh-like object (0) whose [userData] (1) is empty, and a color
    (2) to be attached at [userData-tint]. *)
Definition tinted : world :=
  World {[ 0 := plain {["userData" := VRef 1]};
           1 := plain ∅;
           2 := Obj Three.Color ∅ None ]}
        {[ 0 := Node "mesh" None [] (VRef 0) [];
           1 := Node "color" None [] (VRef 2) [("attach", VStr "userData-tint")] ]}
        Three.catalogue [] [].

(** A parent object (0) with a [slot] holding 7, and a child (object 2)
    with the attach descriptor given. *)
Definition slotted (descriptor : val) (child : obj) : world :=
  World {[ 0 := plain {["slot" := VNum 7]}; 2 := child ]}
        {[ 0 := Node "mesh" None [] (VRef 0) [];
           1 := Node "child" None [] (VRef 2) [("attach", descriptor)] ]}
        Three.catalogue [] [].

(** Attach of node 1 to node 0, then detach. *)
Definition round_trip (w : world) : world :=
  exec (attach Three.lib 0 1 ;;; detach Three.lib 0 1) w.

(** ** Links of the tree *)

(** Every node keeps its parent and its children. *)
Definition keeps_links (w w' : world) : Prop :=
  forall m nd, w_nodes w !! m = Some nd ->
    exists nd', w_nodes w' !! m = Some nd' /\
                n_parent nd' = n_parent nd /\ n_children nd' = n_children nd.

(** A change of a node that leaves its parent and its children alone. *)
Definition linked (f : node -> node) : Prop :=
  forall nd, n_parent (f nd) = n_parent nd /\ n_children (f nd) = n_children nd.

(** [stays R m]: however [m] ends, the world it leaves is related by [R]
    to the one it started from. *)
Definition stays {A} (R : world -> world -> Prop) (m : M world A) : Prop :=
  forall w, R w (final (m w)).

(** No call was logged. *)
Definition keeps_log (w w' : world) : Prop := w_log w' = w_log w.

(** A buffer geometry created under the root, not yet inserted. *)
Definition geometry_created : world :=
  exec (createElement "bufferGeometry") root_world.

(** The idle queue is as it was. *)
Definition keeps_idle (w w' : world) : Prop := w_idle w' = w_idle w.

(** Whether the placement goes through the scene graph, for a child that
    declares no attachment: the earlier revision asks only that the
    child's object is an [Object3D], the later one asks it of both
    objects. *)
Definition graph_linked (rev : revision) (h : heap) (pobj cobj : val) : bool :=
  match rev with
  | RevA => instanceOf h cobj "Object3D"
  | RevB => instanceOf h pobj "Object3D" && instanceOf h cobj "Object3D"
  end.

(** The objects of [positioned] with a node for the first object and a
    node for the second vector: neither object is an [Object3D]. *)
Definition positioned_nodes : world :=
  with_nodes {[ 0 := Node "mesh" None [] (VRef 0) [];
                1 := Node "vector2" None [] (VRef 2) [] ]} positioned.

(** A mesh inserted under the root and removed again: committed, and out
    of the tree and of the graph. *)
Definition regrafted : world :=
  exec (m <- createElement "mesh" ;;
        insertNode Three.lib RevB 0 m None ;;;
        removeNode Three.lib RevB 0 m) root_world.

(** * Properties *)

(** ** Path Resolver *)

Section Resolver.

Implicit Types (h : heap) (v root target : val) (key k : string) (chain : list string).

Lemma walk_app h v chain1 chain2 :
  walk h v (chain1 ++ chain2)%list =
  match walk h v chain1 with
  | inr x => walk h x chain2
  | inl e => inl e
  end.
Proof.
  revert v. induction chain1 as [|k chain1 IH]; intros v; simpl; [done|].
  destruct (get h v k); [done|]. apply IH.
Qed.

Lemma split_not_nil c s : Str.split c s ≠ [].
Proof.
  destruct s as [|a s]; simpl; [done|].
  destruct (Ascii.eqb a c); [done|]. by destruct (Str.split c s).
Qed.

Lemma chain_last chain :
  chain ≠ [] -> chain = (removelast chain ++ [List.last chain EmptyString])%list.
Proof. apply app_removelast_last. Qed.

(** Whether [v[k]] can be read depends on [v] only. *)
Lemma get_defined h v k k' x :
  get h v k = inr x -> exists y, get h v k' = inr y.
Proof.
  destruct v; simpl; try done; eauto.
  destruct (h !! l); [eauto|done].
Qed.

(** A key without separator resolves to itself. *)
Lemma resolve_plain h root key target :
  Str.includes Str.dash key = false ->
  get h root key = inr target ->
  resolve h root key = inr (Resolved root key target).
Proof. intros Hk Hg. unfold resolve. by rewrite Hg, Hk. Qed.

End Resolver.

(** C6, as amended.  For a pierced key whose segments can be walked from
    [root] down to a leaf value [target]: the returned key is the last
    segment and the returned target the leaf value; when the leaf has no
    settor the returned root is [parent], the object that holds the leaf, so
    that [root[key]] is the leaf's slot; when the leaf has a settor the
    returned root is the ORIGINAL [root], unchanged (not the object that
    holds the leaf). *)
Theorem resolve_pierced (h : heap) (root : val) (key : string) (target : val) :
  Str.includes Str.dash key = true ->
  walk h root (Str.split Str.dash key) = inr target ->
  exists parent,
    walk h root (removelast (Str.split Str.dash key)) = inr parent /\
    get h parent (List.last (Str.split Str.dash key) EmptyString) = inr target /\
    resolve h root key =
      inr (Resolved (if has h target "set" then root else parent)
                    (List.last (Str.split Str.dash key) EmptyString)
                    target).
Proof.
  intros Hk Hw.
  pose proof (chain_last _ (split_not_nil Str.dash key)) as Hc.
  set (chain := Str.split Str.dash key) in *.
  assert (Hparent : exists parent,
             walk h root (removelast chain) = inr parent /\
             get h parent (List.last chain EmptyString) = inr target).
  { rewrite Hc, walk_app in Hw.
    destruct (walk h root (removelast chain)) as [e|parent]; [done|].
    exists parent. split; [done|]. simpl in Hw.
    by destruct (get h parent (List.last chain EmptyString)) as [e|x]; simplify_eq. }
  destruct Hparent as (parent & Hp & Hleaf).
  exists parent. split_and!; [done..|].
  assert (Hroot : exists y, get h root key = inr y).
  { destruct chain as [|k0 rest] eqn:E; [done|].
    simpl in Hw. destruct (get h root k0) as [e|x] eqn:Hg; [done|].
    eapply get_defined, Hg. }
  destruct Hroot as [y Hy].
  unfold resolve. rewrite Hy, Hk. simpl. fold chain. rewrite Hw.
  destruct (has h target "set"); simpl; [done|]. by rewrite Hp.
Qed.

Lemma resolve_pierced_witness :
  exists parent,
    walk atomic_heap (VRef 0) (removelast (Str.split Str.dash "a-b")) = inr parent /\
    get atomic_heap parent (List.last (Str.split Str.dash "a-b") EmptyString)
      = inr (VNum 7) /\
    resolve atomic_heap (VRef 0) "a-b" =
      inr (Resolved (if has atomic_heap (VNum 7) "set" then VRef 0 else parent)
                    (List.last (Str.split Str.dash "a-b") EmptyString)
                    (VNum 7)).
Proof.
  apply (resolve_pierced atomic_heap (VRef 0) "a-b" (VNum 7)); reflexivity.
Defined.

(** C6, as stated, fails.  Object 0 holds object 1 under [a], which holds
    a [Vector2] (with a settor) under [b].  Resolving [a-b] from object 0
    returns object 0 as root, while the object that holds the leaf is
    object 1. *)
Lemma resolve_settor_keeps_original_root :
  has pierced_heap (VRef 2) "set" = true /\
  walk pierced_heap (VRef 0) ["a"; "b"] = inr (VRef 2) /\
  walk pierced_heap (VRef 0) ["a"] = inr (VRef 1) /\
  get pierced_heap (VRef 1) "b" = inr (VRef 2) /\
  resolve pierced_heap (VRef 0) "a-b" = inr (Resolved (VRef 0) "b" (VRef 2)) /\
  VRef 0 <> VRef 1.
Proof. split_and!; [vm_compute; reflexivity..|done]. Qed.

(** ** Frames: what an operation leaves alone *)

Lemma get_benign v k : benign (fun h => get h v k).
Proof. intros h e. destruct v; simpl; try destruct (h !! l); naive_solver. Qed.

Lemma put_benign v k x : benign (fun h => put h v k x).
Proof. intros h e. destruct v; simpl; try destruct (h !! l); naive_solver. Qed.

Lemma del_benign v k : benign (fun h => del h v k).
Proof. intros h e. destruct v; simpl; try destruct (h !! l); naive_solver. Qed.

Lemma spread_benign v : benign (fun h => spread h v).
Proof.
  intros h e. destruct v; simpl; try naive_solver.
  destruct (h !! l) as [o|]; [destruct (o_elems o)|]; naive_solver.
Qed.

Lemma constructorOf_benign v : benign (fun h => constructorOf h v).
Proof. intros h e. destruct v; simpl; try destruct (h !! l); naive_solver. Qed.

Lemma walk_benign root chain : benign (fun h => walk h root chain).
Proof.
  intros h e. revert root. induction chain as [|k chain IH]; intros root; simpl; [done|].
  destruct (get h root k) as [e'|x] eqn:Hg; [|by apply IH].
  intros [= <-]. by eapply get_benign, Hg.
Qed.

Lemma resolve_benign root key : benign (fun h => resolve h root key).
Proof.
  intros h e. unfold resolve.
  destruct (get h root key) as [e'|x] eqn:Hg.
  { intros [= <-]. by eapply get_benign, Hg. }
  destruct (negb (Str.includes Str.dash key)); [done|].
  destruct (walk h root (Str.split Str.dash key)) as [e'|t] eqn:Hw.
  { intros [= <-]. by eapply walk_benign, Hw. }
  destruct (negb (has h t "set")); [|done].
  destruct (walk h root (removelast (Str.split Str.dash key))) as [e'|t'] eqn:Hw'; [|done].
  intros [= <-]. by eapply walk_benign, Hw'.
Qed.

Lemma graphChildren_benign v : benign (fun h => graphChildren h v).
Proof.
  intros h e. unfold graphChildren.
  destruct (get h v "children") as [e'|x] eqn:Hg.
  { intros [= <-]. by eapply get_benign, Hg. }
  apply spread_benign.
Qed.

Lemma setGraphChildren_benign v es : benign (fun h => setGraphChildren h v es).
Proof.
  intros h e. unfold setGraphChildren.
  destruct (get h v "children") as [e'|x] eqn:Hg.
  { intros [= <-]. by eapply get_benign, Hg. }
  destruct x; try naive_solver.
  destruct (h !! l) as [o|]; [destruct (o_elems o)|]; naive_solver.
Qed.

Create HintDb frames.
#[global] Hint Resolve get_benign put_benign del_benign spread_benign
  constructorOf_benign walk_benign resolve_benign graphChildren_benign
  setGraphChildren_benign : frames.

(** *** The relations are preorders that ignore what they should *)

Lemma tidy_set_parent p : tidy (set_parent p).
Proof. done. Qed.
Lemma tidy_set_children cs : tidy (set_children cs).
Proof. done. Qed.
Lemma tidy_set_prop key value : tidy (set_prop key value).
Proof. done. Qed.

#[global] Hint Resolve tidy_set_parent tidy_set_children tidy_set_prop : frames.

Lemma keeps_nodes_refl w : keeps_nodes w w.
Proof. done. Qed.
Lemma keeps_nodes_trans w1 w2 w3 :
  keeps_nodes w1 w2 -> keeps_nodes w2 w3 -> keeps_nodes w1 w3.
Proof. unfold keeps_nodes. congruence. Qed.

Lemma keeps_objects_refl w : keeps_objects w w.
Proof. split; eauto. Qed.

Lemma keeps_objects_trans w1 w2 w3 :
  keeps_objects w1 w2 -> keeps_objects w2 w3 -> keeps_objects w1 w3.
Proof.
  intros (H1 & C1) (H2 & C2). split.
  - intros m nd Hm. destruct (H1 m nd Hm) as (nd' & Hm' & ? & ?).
    destruct (H2 m nd' Hm') as (nd'' & ? & ? & ?). exists nd''. split_and!; congruence.
  - intros n. destruct (C1 n), (C2 n). split; congruence.
Qed.

Lemma constructions_call n w f this args :
  constructions n (with_log (w_log w ++ [EvCall f this args]) w) = constructions n w.
Proof.
  unfold constructions. simpl. rewrite List.filter_app, length_app. simpl. lia.
Qed.

Lemma initial_applications_call n w f this args :
  initial_applications n (with_log (w_log w ++ [EvCall f this args]) w)
  = initial_applications n w.
Proof.
  unfold initial_applications. simpl. rewrite List.filter_app, length_app. simpl. lia.
Qed.

Lemma keeps_objects_mod w n nd f :
  w_nodes w !! n = Some nd -> tidy f ->
  keeps_objects w (with_nodes (<[n := f nd]> (w_nodes w)) w).
Proof.
  intros Hn Hf. split; [|done].
  intros m nd0 Hm. simpl. destruct (decide (n = m)) as [->|Hne].
  - rewrite lookup_insert_eq. exists (f nd). simplify_eq.
    split; [done|apply Hf].
  - rewrite lookup_insert_ne by done. eauto.
Qed.

Lemma keeps_objects_call w f this args :
  keeps_objects w (with_log (w_log w ++ [EvCall f this args]) w).
Proof.
  split; [eauto|].
  intros n. split; [apply constructions_call|apply initial_applications_call].
Qed.

Lemma keeps_objects_heap w h : keeps_objects w (with_heap h w).
Proof. split; eauto. Qed.

Lemma keeps_objects_idle w q : keeps_objects w (with_idle q w).
Proof. split; eauto. Qed.

#[global] Hint Resolve keeps_nodes_refl keeps_nodes_trans keeps_objects_refl
  keeps_objects_trans keeps_objects_mod keeps_objects_call keeps_objects_heap
  keeps_objects_idle : frames.

Lemma keeps_nodes_heap w h : keeps_nodes w (with_heap h w).
Proof. done. Qed.
Lemma keeps_nodes_call w f this args :
  keeps_nodes w (with_log (w_log w ++ [EvCall f this args]) w).
Proof. done. Qed.
Lemma keeps_nodes_idle w q : keeps_nodes w (with_idle q w).
Proof. done. Qed.

Lemma any_world_intro w w' : any_world w w'.
Proof. done. Qed.

(** Side conditions of the frame lemmas. *)
Ltac frame_side :=
  solve [ assumption
        | exact keeps_objects_refl | exact keeps_objects_trans
        | exact keeps_objects_heap | exact keeps_objects_call
        | exact keeps_objects_idle | exact keeps_objects_mod
        | exact keeps_nodes_refl | exact keeps_nodes_trans
        | exact keeps_nodes_heap | exact keeps_nodes_call
        | exact keeps_nodes_idle
        | intros; exact (any_world_intro _ _)
        | auto with frames ].

(** *** Steps that work on the heap only *)

Section HeapFrame.

(** Any relation that is a preorder and ignores the heap and the calls
    logged is kept by everything that works on the heap only. *)
Context (L : library) (R : world -> world -> Prop).
Hypothesis R_refl : forall w, R w w.
Hypothesis R_trans : forall w1 w2 w3, R w1 w2 -> R w2 w3 -> R w1 w3.
Hypothesis R_heap : forall w h, R w (with_heap h w).
Hypothesis R_call :
  forall w f this args, R w (with_log (w_log w ++ [EvCall f this args]) w).

Lemma ok_ret {A} (a : A) : ok R (ret a).
Proof. intros w. apply R_refl. Qed.

Lemma ok_throw {A} e : host_error e = false -> ok R (@throw world A e).
Proof. intros He w. simpl. auto. Qed.

Lemma ok_bind {A B} (m : M world A) (k : A -> M world B) :
  ok R m -> (forall a, ok R (k a)) -> ok R (bind m k).
Proof.
  intros Hm Hk w. unfold bind. specialize (Hm w).
  destruct (m w) as [a w1|e w1]; [|done].
  specialize (Hk a w1). destruct (k a w1) as [b w2|e w2].
  - eauto.
  - destruct Hk. eauto.
Qed.

Lemma ok_getNode n : ok R (getNode n).
Proof. intros w. unfold getNode. destruct (w_nodes w !! n); simpl; auto. Qed.

Lemma ok_readH {A} (f : heap -> error + A) : benign f -> ok R (readH f).
Proof.
  intros Hf w. unfold readH. destruct (f (w_heap w)) eqn:E; simpl; eauto.
Qed.

Lemma ok_writeH (f : heap -> error + heap) : benign f -> ok R (writeH f).
Proof.
  intros Hf w. unfold writeH. destruct (f (w_heap w)) eqn:E; simpl; eauto.
Qed.

Lemma ok_askH {A} (f : heap -> A) : ok R (askH f).
Proof. intros w. apply R_refl. Qed.

Lemma ok_alloc o : ok R (alloc o).
Proof. intros w. apply R_heap. Qed.

Lemma ok_invoke f this args : ok R (invoke L f this args).
Proof.
  intros w. unfold invoke.
  set (w1 := with_log _ w).
  assert (R w w1) by apply R_call.
  destruct (lib_call L f this args (w_heap w1)); simpl.
  - eapply R_trans; [done|apply R_heap].
  - split; [|done]. eapply R_trans; [done|apply R_heap].
Qed.

Lemma ok_apply f this args : ok R (apply L f this args).
Proof. destruct f; simpl; try (by apply ok_throw). apply ok_invoke. Qed.

Lemma ok_callMethod target m args : ok R (callMethod L target m args).
Proof.
  apply ok_bind; [apply ok_readH; auto with frames|]. intros f. apply ok_apply.
Qed.

End HeapFrame.

(** One step through a definition made of the primitive steps. *)
Ltac ok_step :=
  match goal with
  | |- ok _ (bind _ _) => apply ok_bind; [frame_side..| |intros ?]
  | |- ok _ (ret _) => apply ok_ret; frame_side
  | |- ok _ (throw _) => apply ok_throw; frame_side
  | |- ok _ (getNode _) => apply ok_getNode; frame_side
  | |- ok _ (readH _) => apply ok_readH; frame_side
  | |- ok _ (writeH _) => apply ok_writeH; frame_side
  | |- ok _ (askH _) => apply ok_askH; frame_side
  | |- ok _ (alloc _) => apply ok_alloc; frame_side
  | |- ok _ (invoke _ _ _ _) => apply ok_invoke; frame_side
  | |- ok _ (apply _ _ _ _) => apply ok_apply; frame_side
  | |- ok _ (callMethod _ _ _ _) => apply ok_callMethod; frame_side
  | |- ok _ (if ?b then _ else _) => destruct b
  | |- ok _ (match ?x with _ => _ end) => destruct x
  end.

Section HeapFrameOps.

Context (L : library) (R : world -> world -> Prop).
Hypothesis R_refl : forall w, R w w.
Hypothesis R_trans : forall w1 w2 w3, R w1 w2 -> R w2 w3 -> R w1 w3.
Hypothesis R_heap : forall w h, R w (with_heap h w).
Hypothesis R_call :
  forall w f this args, R w (with_log (w_log w ++ [EvCall f this args]) w).

Lemma ok_attach parent child : ok R (attach L parent child).
Proof. unfold attach. repeat ok_step. Qed.

Lemma ok_detach parent child : ok R (detach L parent child).
Proof. unfold detach. repeat ok_step. Qed.

Lemma ok_applySet target value : ok R (applySet L target value).
Proof. unfold applySet. repeat ok_step. Qed.

Lemma ok_applyProp rev object prop value : ok R (applyProp L rev object prop value).
Proof.
  unfold applyProp, sameConstructor.
  repeat first [apply ok_applySet; solve [auto] | ok_step].
Qed.

Lemma ok_applyProps rev object props : ok R (applyProps L rev object props).
Proof.
  induction props as [|[prop value] rest IH]; simpl; [by apply ok_ret|].
  destruct (reserved rev prop); [done|].
  apply ok_bind; [done..|by apply ok_applyProp|done].
Qed.

Lemma ok_disposeObject child : ok R (disposeObject L child).
Proof. unfold disposeObject. repeat ok_step. Qed.

End HeapFrameOps.

Section NodeFrame.

(** A preorder that also ignores the idle queue and tidy changes of nodes
    is kept by everything but the commit of a node. *)
Context (L : library) (R : world -> world -> Prop).
Hypothesis R_refl : forall w, R w w.
Hypothesis R_trans : forall w1 w2 w3, R w1 w2 -> R w2 w3 -> R w1 w3.
Hypothesis R_heap : forall w h, R w (with_heap h w).
Hypothesis R_call :
  forall w f this args, R w (with_log (w_log w ++ [EvCall f this args]) w).
Hypothesis R_idle : forall w q, R w (with_idle q w).
Hypothesis R_mod :
  forall w n nd f, w_nodes w !! n = Some nd -> tidy f ->
                   R w (with_nodes (<[n := f nd]> (w_nodes w)) w).

Lemma ok_modNode n f : tidy f -> ok R (modNode n f).
Proof.
  intros Hf w. unfold modNode. destruct (w_nodes w !! n) eqn:E; simpl; auto.
Qed.

Lemma ok_autoAttach child : ok R (autoAttach child).
Proof.
  unfold autoAttach.
  repeat first [apply ok_modNode; frame_side | ok_step].
Qed.

Lemma ok_disposeChild rev child : ok R (disposeChild L rev child).
Proof.
  unfold disposeChild.
  repeat first [apply ok_disposeObject; solve [auto] | ok_step].
  intros w. apply R_idle.
Qed.

Lemma ok_unlinkChild parent child : ok R (unlinkChild parent child).
Proof.
  unfold unlinkChild.
  repeat first [apply ok_modNode; solve [auto with frames] | ok_step].
Qed.

Lemma ok_removeObject rev parent child : ok R (removeObject L rev parent child).
Proof.
  unfold removeObject.
  repeat first [apply ok_detach; solve [auto] | ok_step].
Qed.

Lemma ok_removeNode rev parent child : ok R (removeNode L rev parent child).
Proof.
  unfold removeNode.
  repeat first [apply ok_unlinkChild | apply ok_removeObject
               | apply ok_disposeChild | ok_step].
Qed.


Lemma ok_place rev parent child beforeChild :
  ok R (place L rev parent child beforeChild).
Proof.
  unfold place.
  repeat first [apply ok_modNode; solve [auto with frames]
               | apply ok_attach; solve [auto]
               | apply ok_removeNode
               | ok_step].
Qed.


End NodeFrame.

(** ** The life of a node: uncommitted, then committed once *)

Section Lifecycle.

Context (L : library).

Lemma ok_final {A} (R : world -> world -> Prop) (m : M world A) w :
  ok R m -> R w (final (m w)).
Proof. intros H. specialize (H w). destruct (m w); simpl; tauto. Qed.






(** [instantiate] in closed form: what it returns or throws, and the
    world it leaves. *)
Lemma instantiate_eq rev c nd w :
  w_nodes w !! c = Some nd ->
  instantiate L rev c w =
    if String.eqb (n_type nd) "primitive" then
      if truthy (prop_get (n_props nd) "object")
      then Ret () (linked_primitive c nd w)
      else Throw PrimitiveWithoutObject w
    else
      match catalogue_get rev (w_catalogue w) (toPascalCase L (n_type nd)) with
      | None | Some (Other false) => Throw (NotInCatalogue (n_type nd)) w
      | Some (Other true) =>
          match declared_args (w_heap w) nd with
          | inr _ => Throw TypeError w
          | inl e => Throw e w
          end
      | Some (Constructor target) =>
          match declared_args (w_heap w) nd with
          | inl e => Throw e w
          | inr args =>
              match lib_new L target args (w_heap w) with
              | Done l h => Ret () (constructed c nd target args l h w)
              | Raised code h => Throw (LibraryError code) (with_heap h w)
              end
          end
      end.
Proof.
  intros Hc. unfold instantiate, bind at 1, getNode. rewrite Hc.
  destruct (String.eqb (n_type nd) "primitive").
  - destruct (truthy (prop_get (n_props nd) "object")); simpl; [|done].
    unfold modNode. by rewrite Hc.
  - destruct (catalogue_get rev (w_catalogue w) (toPascalCase L (n_type nd)))
      as [[target|[]]|]; try done.
    + unfold bind, readH. destruct (declared_args (w_heap w) nd) as [e|args]; [done|].
      unfold construct. destruct (lib_new L target args (w_heap w)) as [l h|code h]; [|done].
      unfold modNode. simpl. by rewrite Hc.
    + unfold bind, readH. by destruct (declared_args (w_heap w) nd).
Qed.

Lemma declared_args_benign c : benign (fun h => declared_args h c).
Proof.
  intros h e. unfold declared_args.
  destruct (prop_get (n_props c) "args"); try done; apply spread_benign.
Qed.













(** An insert of a committed node skips the commit. *)
Lemma insertNode_committed rev parent child beforeChild nd w :
  w_nodes w !! child = Some nd ->
  truthy (n_object nd) = true ->
  insertNode L rev parent child beforeChild w = place L rev parent child beforeChild w.
Proof.
  intros Hc Ht. unfold insertNode, bind, getNode. by rewrite Hc, Ht.
Qed.

(** *** The object of a node is the one that was constructed or linked *)







End Lifecycle.



(** ** Errors at commit *)

Section CommitErrors.

Context (L : library).

Lemma instantiate_missing_object rev c nd w :
  w_nodes w !! c = Some nd -> missing_object nd = true ->
  instantiate L rev c w = Throw PrimitiveWithoutObject w.
Proof.
  intros Hc [Hp Ho]%andb_true_iff. rewrite (instantiate_eq L rev c nd w Hc), Hp.
  apply negb_true_iff in Ho. by rewrite Ho.
Qed.

Lemma instantiate_unknown_type rev c nd w :
  w_nodes w !! c = Some nd -> unknown_type L rev w nd = true ->
  instantiate L rev c w = Throw (NotInCatalogue (n_type nd)) w.
Proof.
  intros Hc [Hp Hk]%andb_true_iff. rewrite (instantiate_eq L rev c nd w Hc).
  apply negb_true_iff in Hp. rewrite Hp.
  by destruct (catalogue_get rev (w_catalogue w) (toPascalCase L (n_type nd)))
    as [[target|[]]|].
Qed.

Lemma instantiate_host_error rev c nd w e w' :
  w_nodes w !! c = Some nd ->
  instantiate L rev c w = Throw e w' -> host_error e = true ->
  missing_object nd || unknown_type L rev w nd = true.
Proof.
  intros Hc. rewrite (instantiate_eq L rev c nd w Hc).
  unfold missing_object, unknown_type.
  destruct (String.eqb (n_type nd) "primitive") eqn:Hp; simpl.
  - by destruct (truthy (prop_get (n_props nd) "object")).
  - destruct (catalogue_get rev (w_catalogue w) (toPascalCase L (n_type nd)))
      as [[target|[]]|]; try done.
    + destruct (declared_args (w_heap w) nd) as [e'|args] eqn:Ha.
      { intros [= <- <-] He. by rewrite (declared_args_benign nd _ _ Ha) in He. }
      destruct (lib_new L target args (w_heap w)); [done|]. by intros [= <- <-].
    + destruct (declared_args (w_heap w) nd) as [e'|args] eqn:Ha.
      { intros [= <- <-] He. by rewrite (declared_args_benign nd _ _ Ha) in He. }
      by intros [= <- <-].
Qed.

Lemma ok_initialProps rev c : ok any_world (initialProps L rev c).
Proof.
  unfold initialProps.
  repeat first [apply ok_applyProps; frame_side | ok_step]. done.
Qed.

(** An insert throws one of the renderer's own errors only in the two
    cases of the commit. *)
Lemma insertNode_host_error rev parent child beforeChild nd w e w' :
  w_nodes w !! child = Some nd ->
  insertNode L rev parent child beforeChild w = Throw e w' ->
  host_error e = true ->
  truthy (n_object nd) = false /\
  missing_object nd || unknown_type L rev w nd = true.
Proof.
  intros Hc. unfold insertNode, bind at 1 2, getNode. rewrite Hc.
  destruct (truthy (n_object nd)); cbn [negb].
  - unfold ret.
    assert (H4 : ok any_world (place L rev parent child beforeChild)).
    { apply ok_place; frame_side. }
    specialize (H4 w).
    destruct (place L rev parent child beforeChild w) as [[] w4|e4 w4]; [done|].
    intros [= <- <-]. destruct H4. congruence.
  - unfold commit, bind.
    destruct (instantiate L rev child w) as [[] w1|e1 w1] eqn:E1.
    2: { intros [= <- <-] He. split; [done|]. by eapply instantiate_host_error. }
    assert (H2 : ok any_world (autoAttach child)) by (apply ok_autoAttach; frame_side).
    specialize (H2 w1).
    destruct (autoAttach child w1) as [[] w2|e2 w2].
    2: { intros [= <- <-]. destruct H2. congruence. }
    pose proof (ok_initialProps rev child w2) as H3.
    destruct (initialProps L rev child w2) as [[] w3|e3 w3].
    2: { intros [= <- <-]. destruct H3. congruence. }
    assert (H4 : ok any_world (place L rev parent child beforeChild)).
    { apply ok_place; frame_side. }
    specialize (H4 w3).
    destruct (place L rev parent child beforeChild w3) as [[] w4|e4 w4]; [done|].
    intros [= <- <-]. destruct H4. congruence.
Qed.

End CommitErrors.

(** C5, as amended.  When an insert commits an uncommitted node, the
    commit throws one of the renderer's own errors in exactly two cases:
    the node is a primitive and [props.object] is not set (is falsy), or
    the lookup [catalogue[Name]] of the type name, first letter
    capitalised, finds nothing truthy.  In both cases the error is thrown
    before anything else happens: the world is the one the insert started
    from, so no object was constructed and the node is still uncommitted.
    A name the lookup finds bound to a truthy value that is no
    constructor (in the later revision the names every object inherits,
    such as [__proto__]) passes the guard, and [new] throws a TypeError,
    nothing having been constructed.  (Whatever else the commit throws
    comes from the runtime or the library.) *)
Theorem commit_fails_in_two_cases (L : library) (rev : revision)
    (parent child : nid) (beforeChild : option nid) (nd : node) (w : world) :
  w_nodes w !! child = Some nd ->
  truthy (n_object nd) = false ->
  (missing_object nd = true ->
     insertNode L rev parent child beforeChild w = Throw PrimitiveWithoutObject w) /\
  (unknown_type L rev w nd = true ->
     insertNode L rev parent child beforeChild w
       = Throw (NotInCatalogue (n_type nd)) w) /\
  (forall e w',
     insertNode L rev parent child beforeChild w = Throw e w' ->
     host_error e = true ->
     missing_object nd || unknown_type L rev w nd = true) /\
  (forall args,
     String.eqb (n_type nd) "primitive" = false ->
     catalogue_get rev (w_catalogue w) (toPascalCase L (n_type nd)) = Some (Other true) ->
     declared_args (w_heap w) nd = inr args ->
     insertNode L rev parent child beforeChild w = Throw TypeError w).
Proof.
  intros Hc Hf.
  assert (Hins : insertNode L rev parent child beforeChild w
                 = (commit L rev child ;;; place L rev parent child beforeChild) w).
  { unfold insertNode, bind, getNode. by rewrite Hc, Hf. }
  split_and!.
  - intros Hm. rewrite Hins. unfold commit, bind.
    by rewrite (instantiate_missing_object L rev child nd w Hc Hm).
  - intros Hu. rewrite Hins. unfold commit, bind.
    by rewrite (instantiate_unknown_type L rev child nd w Hc Hu).
  - intros e w' Hthrow He.
    by destruct (insertNode_host_error L rev parent child beforeChild nd w e w'
                   Hc Hthrow He).
  - intros args Hp Hk Ha. rewrite Hins. unfold commit, bind.
    by rewrite (instantiate_eq L rev child nd w Hc), Hp, Hk, Ha.
Qed.

Lemma commit_fails_in_two_cases_witness :
  insertNode Three.lib RevB 0 1 None primitive_created
    = Throw PrimitiveWithoutObject primitive_created /\
  insertNode Three.lib RevB 0 1 None unknown_created
    = Throw (NotInCatalogue "fooBar") unknown_created.
Proof.
  split.
  - apply (commit_fails_in_two_cases Three.lib RevB 0 1 None
             (Node "primitive" None [] VNull [("args", VRef 2)]) primitive_created);
      vm_compute; reflexivity.
  - apply (commit_fails_in_two_cases Three.lib RevB 0 1 None
             (Node "fooBar" None [] VNull [("args", VRef 2)]) unknown_created);
      vm_compute; reflexivity.
Defined.

(** C5, as stated, fails: a commit can throw in a third case.  The mesh
    of [malformed_prop] is no primitive and its type is in the catalogue;
    its commit constructs the object and then throws a TypeError while
    applying the prop [foo-bar], whose path leads through [undefined]. *)
Lemma commit_throws_on_malformed_prop :
  w_nodes malformed_prop !! 1
    = Some (Node "mesh" None [] VNull [("args", VRef 2); ("foo-bar", VNum 1)]) /\
  catalogue_get RevB Three.catalogue (toPascalCase Three.lib "mesh")
    = Some (Constructor Three.Mesh) /\
  insertNode Three.lib RevB 0 1 None malformed_prop
    = Throw TypeError (exec (insertNode Three.lib RevB 0 1 None) malformed_prop) /\
  constructions 1 malformed_prop = 0 /\
  constructions 1 (exec (insertNode Three.lib RevB 0 1 None) malformed_prop) = 1 /\
  object_of (exec (insertNode Three.lib RevB 0 1 None) malformed_prop) 1
    = Some (VRef 3).
Proof. split_and!; vm_compute; reflexivity. Qed.

(** The initial props are applied in the order of [for ... in]: the
    index key [0], written last, is visited first and assigned before the
    prop [foo-bar] throws. *)
Lemma initialProps_visits_indices_first :
  (n_props <$> w_nodes indexed_prop !! 1)
    = Some [("args", VRef 2); ("foo-bar", VNum 1); ("0", VNum 5)] /\
  for_in [("args", VRef 2); ("foo-bar", VNum 1); ("0", VNum 5)]
    = [("0", VNum 5); ("args", VRef 2); ("foo-bar", VNum 1)] /\
  insertNode Three.lib RevB 0 1 None indexed_prop
    = Throw TypeError (exec (insertNode Three.lib RevB 0 1 None) indexed_prop) /\
  get (w_heap (exec (insertNode Three.lib RevB 0 1 None) indexed_prop)) (VRef 3) "0"
    = inr (VNum 5).
Proof. split_and!; vm_compute; reflexivity. Qed.

(** A type named [__proto__] is no key of the catalogue.  The lookup of
    the later revision finds [Object.prototype] under that name: the
    guard passes and [new] throws a TypeError.  The lookup of the earlier
    revision finds nothing: the renderer's own error is thrown.  Nothing
    is constructed either way. *)
Lemma commit_of_inherited_name :
  w_catalogue inherited_created !! toPascalCase Three.lib "__proto__" = None /\
  insertNode Three.lib RevB 0 1 None inherited_created
    = Throw TypeError inherited_created /\
  insertNode Three.lib RevA 0 1 None inherited_created
    = Throw (NotInCatalogue "__proto__") inherited_created.
Proof. split_and!; vm_compute; reflexivity. Qed.

(** ** Removal *)

Lemma indexOf_None {A} `{EqDecision A} (x : A) (l : list A) :
  x ∉ l -> indexOf x l = None.
Proof.
  induction l as [|y l IH]; simpl; [done|].
  intros Hx. apply not_elem_of_cons in Hx as [Hne Hx].
  rewrite decide_False by done. by rewrite IH.
Qed.

Lemma indexOf_Some {A} `{EqDecision A} (x : A) (l : list A) i :
  indexOf x l = Some i -> l !! i = Some x.
Proof.
  revert i. induction l as [|y l IH]; intros i; simpl; [done|].
  destruct (decide (y = x)) as [->|Hne].
  - by intros [= <-].
  - destruct (indexOf x l) as [j|]; simpl; [|done].
    intros [= <-]. simpl. by apply IH.
Qed.

Section Removal.

Context (L : library).

(** Detaching, removing from the graph and disposing leave the tree alone. *)
Lemma removeObject_keeps_nodes rev parent child w :
  w_nodes (final (removeObject L rev parent child w)) = w_nodes w.
Proof.
  apply (ok_final keeps_nodes). apply ok_removeObject; frame_side.
Qed.

Lemma disposeChild_keeps_nodes rev child w :
  w_nodes (final (disposeChild L rev child w)) = w_nodes w.
Proof.
  apply (ok_final keeps_nodes). apply ok_disposeChild; frame_side.
Qed.

Lemma unlinkChild_missing parent child pn cn w :
  w_nodes w !! parent = Some pn ->
  w_nodes w !! child = Some cn ->
  child ∉ n_children pn ->
  unlinkChild parent child w
  = Ret () (with_nodes (<[child := set_parent None cn]> (w_nodes w)) w).
Proof.
  intros Hp Hc Hnot. unfold unlinkChild, bind, modNode, getNode. rewrite Hc. simpl.
  destruct (decide (child = parent)) as [->|Hne].
  - rewrite lookup_insert_eq. simplify_eq. simpl. by rewrite indexOf_None.
  - rewrite lookup_insert_ne by done. rewrite Hp. by rewrite indexOf_None.
Qed.

End Removal.

(** C10, as amended.  Removing a child that is not among the parent's
    children: the unlink block returns normally, having cleared the
    child's parent and nothing else (no splice); the detach or graph
    removal and the disposal then run from that world; and when
    [removeNode] ends, by return or by throw, the parent's children are
    what they were and the child's parent is cleared. *)
Theorem removeNode_missing_child (L : library) (rev : revision)
    (parent child : nid) (pn cn : node) (w : world) :
  w_nodes w !! parent = Some pn ->
  w_nodes w !! child = Some cn ->
  child ∉ n_children pn ->
  unlinkChild parent child w
    = Ret () (with_nodes (<[child := set_parent None cn]> (w_nodes w)) w) /\
  removeNode L rev parent child w
    = (removeObject L rev parent child ;;; disposeChild L rev child)
        (with_nodes (<[child := set_parent None cn]> (w_nodes w)) w) /\
  n_children <$> w_nodes (final (removeNode L rev parent child w)) !! parent
    = Some (n_children pn) /\
  n_parent <$> w_nodes (final (removeNode L rev parent child w)) !! child
    = Some None.
Proof.
  intros Hp Hc Hnot.
  pose proof (unlinkChild_missing parent child pn cn w Hp Hc Hnot) as Hu.
  set (w1 := with_nodes _ w) in *.
  assert (Hrm : removeNode L rev parent child w
                = (removeObject L rev parent child ;;; disposeChild L rev child) w1).
  { unfold removeNode. unfold bind at 1. by rewrite Hu. }
  assert (Hnodes : w_nodes (final (removeNode L rev parent child w)) = w_nodes w1).
  { rewrite Hrm. unfold bind.
    pose proof (removeObject_keeps_nodes L rev parent child w1) as H1.
    destruct (removeObject L rev parent child w1) as [[] w2|e w2]; simpl in *; [|done].
    by rewrite disposeChild_keeps_nodes. }
  split_and!; [done|done|..]; rewrite Hnodes; unfold w1; simpl.
  - destruct (decide (child = parent)) as [->|Hne].
    + rewrite lookup_insert_eq. by simplify_eq.
    + rewrite lookup_insert_ne by done. by rewrite Hp.
  - by rewrite lookup_insert_eq.
Qed.

Lemma removeNode_missing_child_witness :
  returned (removeNode Three.lib RevB 1 2 two_meshes) = true /\
  n_children <$> w_nodes (final (removeNode Three.lib RevB 1 2 two_meshes)) !! 1
    = Some [] /\
  n_parent <$> w_nodes (final (removeNode Three.lib RevB 1 2 two_meshes)) !! 2
    = Some None.
Proof.
  split; [vm_compute; reflexivity|].
  apply (removeNode_missing_child Three.lib RevB 1 2
           (Node "mesh" (Some 0) [] (VRef 3) [("args", VRef 2)])
           (Node "mesh" (Some 0) [] (VRef 6) [("args", VRef 5)])
           two_meshes).
  - vm_compute; reflexivity.
  - vm_compute; reflexivity.
  - apply not_elem_of_nil.
Defined.

(** C10, as stated, fails: the removal is not total.  Node 1 of
    [mesh_created] was created and never inserted: it is not among the
    children of the root and has no object yet.  The unlink block returns,
    nothing is detached or removed from the graph, and the disposal step
    throws a TypeError reading [dispose] of [null].  (The earlier revision
    returns and throws the same error later, in the idle callback.) *)
Lemma removeNode_uncommitted_child_throws :
  w_nodes mesh_created !! 1
    = Some (Node "mesh" None [] VNull [("args", VRef 2)]) /\
  n_children <$> w_nodes mesh_created !! 0 = Some [] /\
  returned (unlinkChild 0 1 mesh_created) = true /\
  removeNode Three.lib RevB 0 1 mesh_created = Throw TypeError mesh_created /\
  returned (removeNode Three.lib RevA 0 1 mesh_created) = true /\
  returned ((removeNode Three.lib RevA 0 1 ;;; runIdle Three.lib) mesh_created) = false.
Proof. split_and!; vm_compute; reflexivity. Qed.

Section Disposal.

Context (L : library).

(** What the unlink block does when both nodes exist: it returns, the
    child has no parent and is otherwise as it was, and the first
    occurrence of the child is gone from the parent's children. *)
Lemma unlinkChild_spec parent child pn cn w :
  w_nodes w !! parent = Some pn ->
  w_nodes w !! child = Some cn ->
  exists w0 cn0 pn0,
    unlinkChild parent child w = Ret () w0 /\
    w_heap w0 = w_heap w /\ w_log w0 = w_log w /\
    w_nodes w0 !! child = Some cn0 /\
    n_parent cn0 = None /\ n_object cn0 = n_object cn /\
    n_props cn0 = n_props cn /\ n_type cn0 = n_type cn /\
    w_nodes w0 !! parent = Some pn0 /\
    n_children pn0 = match indexOf child (n_children pn) with
                     | Some i => splice_remove i (n_children pn)
                     | None => n_children pn
                     end.
Proof.
  intros Hp Hc. unfold unlinkChild, bind, modNode, getNode. rewrite Hc. simpl.
  destruct (decide (child = parent)) as [->|Hne].
  - simplify_eq. rewrite lookup_insert_eq. simpl.
    destruct (indexOf parent (n_children pn)) as [i|]; simpl.
    + rewrite lookup_insert_eq. eexists _, _, _. split; [done|]. simpl.
      rewrite lookup_insert_eq. by split_and!.
    + eexists _, _, _. split; [done|]. simpl.
      rewrite lookup_insert_eq. by split_and!.
  - rewrite lookup_insert_ne by done. rewrite Hp.
    destruct (indexOf child (n_children pn)) as [i|]; simpl.
    + rewrite lookup_insert_ne by done. rewrite Hp.
      eexists _, _, _. split; [done|]. simpl.
      rewrite lookup_insert_eq, lookup_insert_ne by done.
      rewrite lookup_insert_eq. by split_and!.
    + eexists _, _, _. split; [done|]. simpl.
      rewrite lookup_insert_eq, lookup_insert_ne by done. rewrite Hp.
      by split_and!.
Qed.

(** [child.object.dispose?.()] calls the dispose routine once, if there
    is one, and does nothing else. *)
Lemma disposeObject_calls child cn f w :
  w_nodes w !! child = Some cn ->
  get (w_heap w) (n_object cn) "dispose" = inr (VFun f) ->
  disposeObject L child w = (invoke L f (n_object cn) [] ;;; ret ()) w /\
  w_log (final (disposeObject L child w)) = w_log w ++ [EvCall f (n_object cn) []] /\
  w_nodes (final (disposeObject L child w)) = w_nodes w.
Proof.
  intros Hc Hg.
  assert (Heq : disposeObject L child w = (invoke L f (n_object cn) [] ;;; ret ()) w).
  { unfold disposeObject, bind, getNode, readH. by rewrite Hc, Hg. }
  split; [done|]. rewrite Heq. unfold bind, invoke. simpl.
  by destruct (lib_call L f (n_object cn) [] (w_heap w)).
Qed.

Lemma disposeObject_nothing child cn v w :
  w_nodes w !! child = Some cn ->
  get (w_heap w) (n_object cn) "dispose" = inr v -> nullish v = true ->
  disposeObject L child w = Ret () w.
Proof.
  intros Hc Hg Hv. unfold disposeObject, bind, getNode, readH.
  by rewrite Hc, Hg, Hv.
Qed.

End Disposal.

(** C7, as amended.  [removeNode], once its unlink and
    detach/graph-removal blocks have returned in a world [w1]: the child
    is unlinked in [w1] (no parent, first occurrence gone from the
    parent's children).
    Later revision: if [props.dispose] is [null] or the node is a
    primitive, [removeNode] returns [w1]: nothing is disposed.  Otherwise
    [removeNode] goes on from [w1] with [child.object.dispose?.()] and
    nothing else: when the object has a dispose routine it is called
    exactly once, on the object, after everything else ([w1]'s log
    followed by that one call), and the tree is as in [w1]; when it has
    none, [removeNode] returns [w1].
    Earlier revision: [removeNode] disposes nothing itself and does not
    read [props.dispose]; it returns [w1], with the child appended to the
    queue of idle callbacks unless the node is a primitive.  The callback,
    whenever it runs, calls the dispose routine the object has then, once,
    and does nothing when it has none; run right after the removal (the
    queue having been empty), that is one call after [w1]'s log. *)
Theorem removeNode_disposes_after_removal (L : library) (rev : revision)
    (parent child : nid) (pn cn : node) (w w1 : world) :
  w_nodes w !! parent = Some pn ->
  w_nodes w !! child = Some cn ->
  (unlinkChild parent child ;;; removeObject L rev parent child) w = Ret () w1 ->
  (exists cn1 pn1,
      w_nodes w1 !! child = Some cn1 /\ n_parent cn1 = None /\
      n_object cn1 = n_object cn /\
      w_nodes w1 !! parent = Some pn1 /\
      n_children pn1 = match indexOf child (n_children pn) with
                       | Some i => splice_remove i (n_children pn)
                       | None => n_children pn
                       end) /\
  (rev = RevB ->
     (prop_get (n_props cn) "dispose" = VNull \/
      String.eqb (n_type cn) "primitive" = true ->
        removeNode L rev parent child w = Ret () w1) /\
     (prop_get (n_props cn) "dispose" <> VNull ->
      String.eqb (n_type cn) "primitive" = false ->
        removeNode L rev parent child w = disposeObject L child w1 /\
        (forall f,
           get (w_heap w1) (n_object cn) "dispose" = inr (VFun f) ->
           removeNode L rev parent child w
             = (invoke L f (n_object cn) [] ;;; ret ()) w1 /\
           w_log (final (removeNode L rev parent child w))
             = w_log w1 ++ [EvCall f (n_object cn) []] /\
           w_nodes (final (removeNode L rev parent child w)) = w_nodes w1) /\
        (forall v,
           get (w_heap w1) (n_object cn) "dispose" = inr v -> nullish v = true ->
           removeNode L rev parent child w = Ret () w1))) /\
  (rev = RevA ->
     removeNode L rev parent child w
       = Ret () (if String.eqb (n_type cn) "primitive" then w1
                 else with_idle (w_idle w1 ++ [child]) w1) /\
     (String.eqb (n_type cn) "primitive" = false ->
      w_idle w1 = [] ->
        (forall f,
           get (w_heap w1) (n_object cn) "dispose" = inr (VFun f) ->
           (removeNode L rev parent child ;;; runIdle L) w
             = (invoke L f (n_object cn) [] ;;; ret ()) (with_idle [] w1) /\
           w_log (final ((removeNode L rev parent child ;;; runIdle L) w))
             = w_log w1 ++ [EvCall f (n_object cn) []]) /\
        (forall v,
           get (w_heap w1) (n_object cn) "dispose" = inr v -> nullish v = true ->
           (removeNode L rev parent child ;;; runIdle L) w
             = Ret () (with_idle [] w1))) /\
     (forall w2 rest cn2,
        w_idle w2 = child :: rest ->
        w_nodes w2 !! child = Some cn2 ->
        (forall f,
           get (w_heap w2) (n_object cn2) "dispose" = inr (VFun f) ->
           runIdle L w2 = (invoke L f (n_object cn2) [] ;;; ret ()) (with_idle rest w2)) /\
        (forall v,
           get (w_heap w2) (n_object cn2) "dispose" = inr v -> nullish v = true ->
           runIdle L w2 = Ret () (with_idle rest w2)))).
Proof.
  intros Hp Hc Hpre.
  destruct (unlinkChild_spec parent child pn cn w Hp Hc)
    as (w0 & cn0 & pn0 & Hu & _ & _ & Hc0 & Hpar & Hobj & Hprops & Hty & Hp0 & Hch).
  unfold bind in Hpre. rewrite Hu in Hpre.
  pose proof (removeObject_keeps_nodes L rev parent child w0) as Hnodes.
  rewrite Hpre in Hnodes. simpl in Hnodes.
  assert (Hc1 : w_nodes w1 !! child = Some cn0) by by rewrite Hnodes.
  assert (Hrm : removeNode L rev parent child w = disposeChild L rev child w1).
  { unfold removeNode, bind. by rewrite Hu, Hpre. }
  split_and!.
  - exists cn0, pn0. rewrite Hnodes. by split_and!.
  - intros ->.
    assert (Hd : disposeChild L RevB child w1
                 = (if disposable cn then disposeObject L child w1 else Ret () w1)).
    { unfold disposeChild, bind, getNode. rewrite Hc1.
      unfold disposable. rewrite Hprops, Hty.
      by destruct (negb _ && negb _). }
    rewrite Hrm, Hd. unfold disposable. split.
    + intros [Hnull|Hprim].
      * rewrite Hnull. by rewrite bool_decide_eq_true_2.
      * rewrite Hprim. by rewrite andb_false_r.
    + intros Hflag Hprim. rewrite Hprim.
      rewrite bool_decide_eq_false_2 by done. cbn [negb andb].
      split_and!; [done|..].
      * intros f Hg. rewrite <- Hobj in *. by apply disposeObject_calls.
      * intros v Hg Hv. rewrite <- Hobj in *. by eapply disposeObject_nothing.
  - intros ->.
    assert (Hd : disposeChild L RevA child w1
                 = Ret () (if String.eqb (n_type cn) "primitive" then w1
                           else with_idle (w_idle w1 ++ [child]) w1)).
    { unfold disposeChild, bind, getNode. rewrite Hc1, Hty.
      by destruct (String.eqb (n_type cn) "primitive"). }
    rewrite Hrm, Hd. split_and!; [done| |].
    2: { intros w2 rest cn2 Hq Hc2. unfold runIdle. rewrite Hq.
         assert (Hc2' : w_nodes (with_idle rest w2) !! child = Some cn2) by exact Hc2.
         split.
         - intros f Hg.
           by destruct (disposeObject_calls L child cn2 f (with_idle rest w2) Hc2' Hg).
         - intros v Hg Hv.
           by apply (disposeObject_nothing L child cn2 v (with_idle rest w2) Hc2' Hg Hv). }
    intros Hprim Hidle.
    assert (Hrun : (removeNode L RevA parent child ;;; runIdle L) w
                   = disposeObject L child (with_idle [] w1)).
    { unfold bind at 1. rewrite Hrm, Hd, Hprim.
      unfold runIdle. cbn [w_idle with_idle]. by rewrite Hidle. }
    rewrite Hrun.
    assert (Hc2 : w_nodes (with_idle [] w1) !! child = Some cn0) by exact Hc1.
    split.
    + intros f Hg. rewrite <- Hobj in *.
      destruct (disposeObject_calls L child cn0 f (with_idle [] w1) Hc2 Hg)
        as (Heq & Hlog & _).
      by split.
    + intros v Hg Hv. rewrite <- Hobj in *.
      by apply (disposeObject_nothing L child cn0 v (with_idle [] w1) Hc2 Hg Hv).
Qed.

Lemma removeNode_disposes_after_removal_witness :
  w_log (final (removeNode Three.lib RevB 0 1 grid_inserted))
    = w_log grid_unlinked ++ [EvCall (Method "GridHelper" "dispose") (VRef 3) []] /\
  w_nodes (final (removeNode Three.lib RevB 0 1 grid_inserted))
    = w_nodes grid_unlinked.
Proof.
  pose proof (removeNode_disposes_after_removal Three.lib RevB 0 1
                (Node "" None [1] (VRef 0) [])
                (Node "gridHelper" (Some 0) [] (VRef 3) [("args", VRef 2)])
                grid_inserted grid_unlinked) as H.
  destruct H as (_ & H & _); [vm_compute; reflexivity..|].
  destruct (H eq_refl) as (_ & H').
  destruct H' as (_ & Hcall & _); [discriminate|reflexivity|].
  apply (Hcall (Method "GridHelper" "dispose")); vm_compute; reflexivity.
Defined.

(** C7, as stated, fails on the earlier revision, which has no
    suppression flag to read.  A grid helper is declared with [foo-bar]
    and then [dispose={null}]; its first insert constructs the object and
    throws while applying [foo-bar], before [dispose] is applied.  The
    node's props hold [dispose: null], the object still has its dispose
    routine, and the removal queues the callback that calls it. *)
Lemma removeNode_RevA_disposes_despite_flag :
  (n_props <$> w_nodes grid_failed_commit !! 1)
    = Some [("args", VRef 2); ("foo-bar", VNum 1); ("dispose", VNull)] /\
  object_of grid_failed_commit 1 = Some (VRef 3) /\
  dispose_calls grid_failed_commit = [] /\
  returned ((removeNode Three.lib RevA 0 1 ;;; runIdle Three.lib) grid_failed_commit)
    = true /\
  dispose_calls (exec (removeNode Three.lib RevA 0 1 ;;; runIdle Three.lib)
                      grid_failed_commit)
    = [EvCall (Method "GridHelper" "dispose") (VRef 3) []].
Proof. split_and!; vm_compute; reflexivity. Qed.

(** The later revision on the grid helper: disposed once by the removal,
    not at all when [dispose={null}] was declared. *)
Lemma removeNode_dispose_flag :
  dispose_calls (exec (removeNode Three.lib RevB 0 1) (grid RevB false))
    = [EvCall (Method "GridHelper" "dispose") (VRef 3) []] /\
  dispose_calls (exec (removeNode Three.lib RevB 0 1) (grid RevB true)) = [].
Proof. split; vm_compute; reflexivity. Qed.

(** The earlier revision on the same: the removal disposes nothing and
    queues the child; the idle callback then disposes it once.  Declared
    with [dispose={null}], the object is not disposed either: the prop,
    not reserved in that revision, has overwritten the dispose routine of
    the object. *)
Lemma removeNode_RevA_disposal :
  dispose_calls (exec (removeNode Three.lib RevA 0 1) (grid RevA false)) = [] /\
  w_idle (exec (removeNode Three.lib RevA 0 1) (grid RevA false)) = [1] /\
  dispose_calls (exec (removeNode Three.lib RevA 0 1 ;;; runIdle Three.lib)
                      (grid RevA false))
    = [EvCall (Method "GridHelper" "dispose") (VRef 3) []] /\
  get (w_heap (grid RevA true)) (VRef 3) "dispose" = inr VNull /\
  dispose_calls (exec (removeNode Three.lib RevA 0 1 ;;; runIdle Three.lib)
                      (grid RevA true)) = [].
Proof. split_and!; vm_compute; reflexivity. Qed.

(** The earlier revision defers: [removeNode] itself calls no dispose
    routine; it queues the child, whether it is a primitive being the only
    test. *)
Lemma removeNode_defers_disposal (L : library) (parent child : nid) (w w1 : world) :
  (unlinkChild parent child ;;; removeObject L RevA parent child) w = Ret () w1 ->
  removeNode L RevA parent child w = disposeChild L RevA child w1 /\
  w_log (final (disposeChild L RevA child w1)) = w_log w1 /\
  w_heap (final (disposeChild L RevA child w1)) = w_heap w1.
Proof.
  intros Hpre. split.
  - unfold removeNode, bind in *.
    destruct (unlinkChild parent child w) as [[] w0|e w0]; [|done].
    by rewrite Hpre.
  - unfold disposeChild, bind, getNode.
    destruct (w_nodes w1 !! child) as [c|]; [|done].
    by destruct (negb (String.eqb (n_type c) "primitive")).
Qed.

(** ** Property applier *)

Lemma set_elem_lookup es i v : set_elem es i v !! i = Some v.
Proof.
  unfold set_elem. case_bool_decide as Hi.
  - by apply list_lookup_insert_eq.
  - rewrite lookup_app_r by lia.
    rewrite lookup_app_r by (rewrite length_replicate; lia).
    rewrite length_replicate. by replace (i - length es - (i - length es)) with 0 by lia.
Qed.

(** Reading back the key just written. *)
Lemma obj_get_set o k v : obj_get (obj_set o k v) k = v.
Proof.
  unfold obj_get, obj_set.
  destruct (o_elems o) as [es|] eqn:He, (Str.parse_index k) as [i|] eqn:Hi; simpl;
    rewrite ?Hi, ?He, ?set_elem_lookup, ?lookup_insert_eq; done.
Qed.

Section Applier.

Context (L : library).


Lemma applyProps_reserved_only rev object props w :
  Forall (fun kv => reserved rev kv.1 = true) props ->
  applyProps L rev object props w = Ret () w.
Proof.
  induction 1 as [|[prop value] rest Hr _ IH]; simpl; [done|].
  simpl in Hr. by rewrite Hr.
Qed.









End Applier.



(** The test is on the whole key: [self-args], on an object that holds
    itself under [self], writes the slot [args] of the object. *)
Lemma applyProps_pierced_reserved_name :
  reserved RevB "self-args" = false /\
  resolve (w_heap self_world) (VRef 0) "self-args"
    = inr (Resolved (VRef 0) "args" VUndef) /\
  get (w_heap self_world) (VRef 0) "args" = inr VUndef /\
  get (w_heap (exec (applyProps Three.lib RevB (VRef 0) [("self-args", VNum 5)])
                    self_world)) (VRef 0) "args" = inr (VNum 5).
Proof. split_and!; vm_compute; reflexivity. Qed.


(** *** The code follows the stated priority *)

Section Strategy.

Context (L : library).

Lemma has_live h v m :
  has h v m = true -> exists l o, v = VRef l /\ h !! l = Some o.
Proof.
  unfold has. destruct v; simpl; try done.
  destruct (h !! l) as [o|] eqn:Hl; [eauto|done].
Qed.

Lemma applySet_perform rev r target value w :
  r_target r = target ->
  priority rev (w_heap w) target value <> Assign ->
  priority rev (w_heap w) target value <> Copy ->
  applySet L target value w
  = perform L (priority rev (w_heap w) target value) r value w.
Proof.
  intros <-. unfold priority, applySet, bind, askH.
  destruct (negb (has (w_heap w) (r_target r) "set")); [done|].
  destruct (compares rev (w_heap w) (r_target r)
            && same_constructor (w_heap w) (r_target r) value); [done|].
  intros _ _. destruct (isArray (w_heap w) value); [done|].
  by destruct (negb (instanceOf (w_heap w) (r_target r) "Color")
               && has (w_heap w) (r_target r) "setScalar").
Qed.

(** Calling a method that is not there is a TypeError. *)
Lemma callMethod_missing target m args w :
  has (w_heap w) target "set" = true ->
  has (w_heap w) target m = false ->
  callMethod L target m args w = Throw TypeError w.
Proof.
  intros Hset Hm. destruct (has_live _ _ _ Hset) as (l & o & -> & Hl).
  unfold has in Hm. unfold callMethod, bind, readH.
  destruct (get (w_heap w) (VRef l) m) as [e|f] eqn:Hg.
  { simpl in Hg. by rewrite Hl in Hg. }
  by destruct f.
Qed.

End Strategy.

(** C2, as amended.  For a property that is not reserved, resolved to
    [r], and such that the constructors can be compared (the value is not
    [null] or [undefined] when they are compared), each revision does what
    the strategy chosen by its priority does: assignment to [root[key]]
    without settor; else [target.copy(value)] (and no assignment: the slot
    keeps the same object) when the constructors are compared and are the
    same; else [target.set(...value)] for an array; else
    [target.setScalar(value)] when the target is not a color and has
    [setScalar]; else [target.set(value)].  The later revision compares
    the constructors when the target can copy, and its priority is the
    stated one.  The earlier revision compares them for every target with
    a settor: its priority is the stated one except for a target that
    cannot copy and a value of the same constructor, where it calls a
    [copy] that is not there and throws a TypeError. *)
Theorem applyProps_follows_priority (L : library) (rev : revision) (object : val)
    (prop : string) (value : val) (r : resolved) (w : world) :
  reserved rev prop = false ->
  resolve (w_heap w) object prop = inr r ->
  comparable rev (w_heap w) (r_target r) value = true ->
  applyProps L rev object [(prop, value)] w
    = (perform L (priority rev (w_heap w) (r_target r) value) r value ;;; ret ()) w /\
  priority RevB (w_heap w) (r_target r) value
    = spec_strategy (w_heap w) (r_target r) value /\
  (priority RevA (w_heap w) (r_target r) value
     = spec_strategy (w_heap w) (r_target r) value
   \/ (has (w_heap w) (r_target r) "set" = true /\
       has (w_heap w) (r_target r) "copy" = false /\
       same_constructor (w_heap w) (r_target r) value = true /\
       priority RevA (w_heap w) (r_target r) value = Copy /\
       perform L Copy r value w = Throw TypeError w)).
Proof.
  intros Hres Hr Hcmp. split_and!.
  - cbn [applyProps]. rewrite Hres.
    assert (Hstep : applyProp L rev object prop value w
                    = perform L (priority rev (w_heap w) (r_target r) value) r value w);
      [|unfold bind; by rewrite Hstep].
    unfold applyProp. unfold bind at 1, readH at 1. rewrite Hr.
    unfold bind at 1, askH at 1.
    destruct (has (w_heap w) (r_target r) "set") eqn:Hset; cbn [negb].
    2: { unfold priority. rewrite Hset. by destruct rev. }
    destruct (has_live _ _ _ Hset) as (l & o & Ht & Hl).
    unfold comparable in Hcmp. rewrite Hset in Hcmp. cbn [andb negb orb] in Hcmp.
    assert (Hcompared :
      compares rev (w_heap w) (r_target r) = true ->
      (same <- sameConstructor (r_target r) value ;;
       if same then callMethod L (r_target r) "copy" [value] ;;; ret ()
       else applySet L (r_target r) value) w
      = perform L (priority rev (w_heap w) (r_target r) value) r value w).
    { intros Hc. rewrite Hc in Hcmp. cbn [andb negb orb] in Hcmp.
      destruct (constructorOf (w_heap w) value) as [e|cv] eqn:Hcv; [done|].
      assert (Hsame : same_constructor (w_heap w) (r_target r) value
                      = String.eqb (c_name (o_class o)) cv).
      { unfold same_constructor. rewrite Ht. cbn [constructorOf]. by rewrite Hl, Hcv. }
      assert (Hcode : sameConstructor (r_target r) value w
                      = Ret (String.eqb (c_name (o_class o)) cv) w).
      { unfold sameConstructor, bind, readH, ret. rewrite Ht. cbn [constructorOf].
        by rewrite Hl, Hcv. }
      unfold bind at 1. rewrite Hcode.
      destruct (String.eqb (c_name (o_class o)) cv) eqn:Heq.
      + unfold priority. rewrite Hset, Hc, Hsame. reflexivity.
      + apply applySet_perform; [done|..];
          unfold priority; rewrite Hset, Hc, Hsame; cbn [andb negb];
          destruct (isArray _ _); try done;
          by destruct (negb _ && _). }
    destruct rev.
    + by apply Hcompared.
    + unfold bind at 1, askH at 1.
      destruct (has (w_heap w) (r_target r) "copy") eqn:Hcopy.
      * by apply Hcompared.
      * unfold bind at 1, ret at 1.
        apply applySet_perform; [done|..];
          unfold priority, compares; rewrite Hset, Hcopy; cbn [andb negb];
          destruct (isArray _ _); try done;
          by destruct (negb _ && _).
  - reflexivity.
  - unfold priority, spec_strategy, compares.
    destruct (has (w_heap w) (r_target r) "set") eqn:Hset; cbn [negb]; [|by left].
    destruct (has (w_heap w) (r_target r) "copy") eqn:Hcopy; [by left|].
    destruct (same_constructor (w_heap w) (r_target r) value) eqn:Hsame; [|by left].
    right. split_and!; [done..|].
    unfold perform, bind. by rewrite (callMethod_missing L _ "copy" _ w Hset Hcopy).
Qed.

Lemma applyProps_follows_priority_witness :
  applyProps Three.lib RevB (VRef 0) [("position", VRef 2)] positioned
  = (callMethod Three.lib (VRef 1) "copy" [VRef 2] ;;; ret () ;;; ret ()) positioned
  /\ get (w_heap (exec (applyProps Three.lib RevB (VRef 0) [("position", VRef 2)])
                       positioned)) (VRef 0) "position" = inr (VRef 1)
  /\ get (w_heap (exec (applyProps Three.lib RevB (VRef 0) [("position", VRef 2)])
                       positioned)) (VRef 1) "x" = inr (VNum 5).
Proof.
  split; [|split; vm_compute; reflexivity].
  apply (applyProps_follows_priority Three.lib RevB (VRef 0) "position" (VRef 2)
           (Resolved (VRef 0) "position" (VRef 1)) positioned);
    vm_compute; reflexivity.
Defined.

(** C2, as stated, fails for a value without constructor.  The target
    [position] is a [Vector2]: it has a settor, can copy, is no color and
    has [setScalar].  For the value [undefined] the stated priority
    chooses the scalar shorthand, which would return normally; the code
    throws a TypeError while comparing constructors and calls nothing. *)
Lemma applyProps_undefined_value_throws :
  reserved RevB "position" = false /\
  resolve (w_heap positioned) (VRef 0) "position"
    = inr (Resolved (VRef 0) "position" (VRef 1)) /\
  spec_strategy (w_heap positioned) (VRef 1) VUndef = SetScalar /\
  returned (perform Three.lib SetScalar (Resolved (VRef 0) "position" (VRef 1)) VUndef
              positioned) = true /\
  applyProps Three.lib RevB (VRef 0) [("position", VUndef)] positioned
    = Throw TypeError positioned.
Proof. split_and!; vm_compute; reflexivity. Qed.

(** The earlier revision does not ask whether the target can copy: with
    a settor, no copy operation and a value of the same constructor it
    calls a [copy] that is not there. *)
Lemma applyProps_RevA_copy_unchecked :
  let w := World {[ 0 := plain {["layers" := VRef 1]};
                    1 := Obj Three.Layers ∅ None;
                    2 := Obj Three.Layers ∅ None ]} ∅ Three.catalogue [] [] in
  applyProps Three.lib RevA (VRef 0) [("layers", VRef 2)] w = Throw TypeError w /\
  returned (applyProps Three.lib RevB (VRef 0) [("layers", VRef 2)] w) = true.
Proof. split; vm_compute; reflexivity. Qed.

(** ** Navigation *)

Section Navigation.

(** [getNextSibling] finds the index of the node among its parent's
    children and reads that index plus one in the node's OWN children. *)
Lemma getNextSibling_reads_own_children node nd parent p index w :
  w_nodes w !! node = Some nd ->
  n_parent nd = Some parent ->
  w_nodes w !! parent = Some p ->
  indexOf node (n_children p) = Some index ->
  getNextSibling node w = Ret (n_children nd !! (index + 1)) w.
Proof.
  intros Hn Hpar Hp Hi. unfold getNextSibling, bind, getNode.
  by rewrite Hn, Hpar, Hp, Hi.
Qed.

(** A pure read: the world is unchanged, however it ends. *)
Lemma getNextSibling_pure node w : final (getNextSibling node w) = w.
Proof.
  unfold getNextSibling, bind, getNode.
  destruct (w_nodes w !! node) as [nd|]; [|done].
  destruct (n_parent nd) as [parent|]; [|done].
  destruct (w_nodes w !! parent) as [p|]; [|done].
  by destruct (indexOf node (n_children p)).
Qed.

End Navigation.

(** C8 fails on the code.  In [family], mesh 2 comes right after mesh 1
    among the children of the group, and mesh 4 right after mesh 3 among
    the children of mesh 1.  [getNextSibling] answers mesh 4, a child of
    mesh 1 itself, for mesh 1, and nothing for mesh 3.  (The world is left
    as it was.) *)
Theorem getNextSibling_returns_own_child :
  positional_next family 1 = Some 2 /\
  getNextSibling 1 family = Ret (Some 4) family /\
  positional_next family 3 = Some 4 /\
  getNextSibling 3 family = Ret None family.
Proof. split_and!; vm_compute; reflexivity. Qed.

(** ** Insertion before a sibling *)

(** C4 fails on the code.  Node 3 (object 9) is at graph position 1 of
    node 1.  Inserting node 5 before it, the later revision first removes
    node 3 from the tree and its object from the graph and then splices:
    the new object (15) is at position 1, but position 2 holds object 12
    and object 9 is gone from the list; node 3 has lost its parent. *)
Theorem insertNode_before_drops_sibling :
  graph (three_children RevB) 1 = Some [VRef 6; VRef 9; VRef 12] /\
  object_of (three_children RevB) 3 = Some (VRef 9) /\
  insertNode Three.lib RevB 1 5 (Some 3) (three_children RevB)
    = Ret () (exec (insertNode Three.lib RevB 1 5 (Some 3)) (three_children RevB)) /\
  object_of (exec (insertNode Three.lib RevB 1 5 (Some 3)) (three_children RevB)) 5
    = Some (VRef 15) /\
  graph (exec (insertNode Three.lib RevB 1 5 (Some 3)) (three_children RevB)) 1
    = Some [VRef 6; VRef 15; VRef 12] /\
  n_children <$> w_nodes (exec (insertNode Three.lib RevB 1 5 (Some 3))
                               (three_children RevB)) !! 1 = Some [2; 4; 5] /\
  n_parent <$> w_nodes (exec (insertNode Three.lib RevB 1 5 (Some 3))
                             (three_children RevB)) !! 3 = Some None.
Proof. split_and!; vm_compute; reflexivity. Qed.

(** The earlier revision looks for the sibling's object among the tree
    nodes, finds nothing, and splices one before the end whatever the
    sibling: inserting before node 3 (position 1) puts the new object at
    position 2. *)
Lemma insertNode_before_RevA_wrong_position :
  graph (three_children RevA) 1 = Some [VRef 6; VRef 9; VRef 12] /\
  graph (exec (insertNode Three.lib RevA 1 5 (Some 3)) (three_children RevA)) 1
    = Some [VRef 6; VRef 9; VRef 15; VRef 12].
Proof. split; vm_compute; reflexivity. Qed.

(** ** Attach and detach *)

(** C3 fails on the code when the child has a settor and the path is
    pierced.  Before the attach [userData.tint] is undefined; the attach
    puts the color there; the detach resolves the path again, finds the
    color (which has a settor) at the leaf, keeps the original root, and
    so writes the previous value to [tint] of the parent object itself:
    [userData.tint] still holds the color.  The bookkeeping field is
    cleared. *)
Theorem attach_detach_settor_child_not_restored :
  get (w_heap tinted) (VRef 1) "tint" = inr VUndef /\
  get (w_heap (exec (attach Three.lib 0 1) tinted)) (VRef 1) "tint" = inr (VRef 2) /\
  returned ((attach Three.lib 0 1 ;;; detach Three.lib 0 1) tinted) = true /\
  get (w_heap (exec (attach Three.lib 0 1 ;;; detach Three.lib 0 1) tinted))
      (VRef 1) "tint" = inr (VRef 2) /\
  (o_fields <$> w_heap (exec (attach Three.lib 0 1 ;;; detach Three.lib 0 1) tinted) !! 0)
    = Some {["userData" := VRef 1; "tint" := VUndef]} /\
  (o_fields <$> w_heap (exec (attach Three.lib 0 1 ;;; detach Three.lib 0 1) tinted) !! 2)
    = Some ∅.
Proof. split_and!; vm_compute; reflexivity. Qed.

(** *** Attach then detach on a plain path *)

Section AttachDetach.

Context (L : library).

Lemma split_plain c s : Str.includes c s = false -> Str.split c s = [s].
Proof.
  induction s as [|a s IH]; simpl; [done|].
  destruct (Ascii.eqb a c); [done|]. intros H. by rewrite (IH H).
Qed.

Lemma INDEX_REGEX_plain a :
  Str.includes Str.dash a = false -> INDEX_REGEX_test a = false.
Proof.
  intros H. unfold INDEX_REGEX_test, index_match. by rewrite (split_plain _ _ H).
Qed.

(** For a path without separator, and a parent object and a child object
    that are two live objects, attach followed by detach returns, leaves
    in the slot the value it held before, and leaves no bookkeeping field
    on the child's object. *)
Lemma attach_detach_plain_restores parent child pn cn a lp lc op oc w :
  w_nodes w !! parent = Some pn ->
  w_nodes w !! child = Some cn ->
  prop_get (n_props cn) "attach" = VStr a ->
  Str.includes Str.dash a = false ->
  n_object pn = VRef lp -> n_object cn = VRef lc -> lp <> lc ->
  w_heap w !! lp = Some op -> w_heap w !! lc = Some oc ->
  exists w',
    (attach L parent child ;;; detach L parent child) w = Ret () w' /\
    get (w_heap w') (VRef lp) a = get (w_heap w) (VRef lp) a /\
    exists oc', w_heap w' !! lc = Some oc' /\
                o_fields oc' !! "__previousAttach" = None.
Proof.
  intros Hp Hc Ha Hplain Hop Hoc Hne Hlp Hlc.
  set (prev := obj_get op a).
  set (h1 := <[lc := obj_set oc "__previousAttach" prev]> (w_heap w)).
  set (h2 := <[lp := obj_set op a (VRef lc)]> h1).
  assert (Hatt : attach L parent child w = Ret () (with_heap h2 w)).
  { unfold attach, bind, getNode. rewrite Hp, Hc, Ha.
    rewrite (INDEX_REGEX_plain _ Hplain). unfold ret, readH, writeH.
    rewrite Hop, Hoc.
    rewrite (resolve_plain (w_heap w) (VRef lp) a prev Hplain)
      by (simpl; by rewrite Hlp).
    cbn [r_root r_key]. simpl. rewrite Hlp, Hlc. simpl.
    rewrite lookup_insert_ne by done. by rewrite Hlp. }
  set (h3 := <[lp := obj_set (obj_set op a (VRef lc)) a prev]> h2).
  set (h4 := <[lc := obj_delete (obj_set oc "__previousAttach" prev) "__previousAttach"]> h3).
  assert (H2lp : h2 !! lp = Some (obj_set op a (VRef lc))).
  { unfold h2. by rewrite lookup_insert_eq. }
  assert (H2lc : h2 !! lc = Some (obj_set oc "__previousAttach" prev)).
  { unfold h2, h1. rewrite lookup_insert_ne by done. by rewrite lookup_insert_eq. }
  assert (H3lc : h3 !! lc = Some (obj_set oc "__previousAttach" prev)).
  { unfold h3. by rewrite lookup_insert_ne. }
  assert (Hdet : detach L parent child (with_heap h2 w) = Ret () (with_heap h4 w)).
  { assert (Hp2 : w_nodes (with_heap h2 w) !! parent = Some pn) by exact Hp.
    assert (Hc2 : w_nodes (with_heap h2 w) !! child = Some cn) by exact Hc.
    assert (Hw4 : with_heap h4 w = with_heap h4 (with_heap h3 (with_heap h2 w)))
      by reflexivity.
    rewrite Hw4. clear Hw4.
    assert (Hh2 : w_heap (with_heap h2 w) = h2) by reflexivity.
    set (w2 := with_heap h2 w) in *.
    unfold detach, bind, getNode. rewrite Hp2, Hc2, Ha.
    unfold ret, readH, writeH. rewrite Hop, Hoc, Hh2.
    rewrite (resolve_plain h2 (VRef lp) a (VRef lc) Hplain)
      by (simpl; by rewrite H2lp, obj_get_set).
    cbn [r_root r_key get put]. rewrite Hh2, H2lc, obj_get_set, Hh2, H2lp.
    fold h3. cbn [w_heap with_heap del]. by rewrite H3lc. }
  exists (with_heap h4 w). split_and!.
  - unfold bind. by rewrite Hatt, Hdet.
  - simpl. unfold h4, h3. rewrite lookup_insert_ne by done.
    rewrite lookup_insert_eq, Hlp. by rewrite obj_get_set.
  - eexists. simpl. unfold h4. rewrite lookup_insert_eq. split; [done|].
    simpl. apply lookup_delete_eq.
Qed.

End AttachDetach.

(** The array slot [points-0].  The attach creates the array.  With a
    child without settor (a material) the detach puts [undefined] back in
    element 0; the array itself stays.  With a child with a settor (a
    vector) the detach writes to ["0"] of the parent object instead and
    element 0 still holds the child. *)
Lemma attach_detach_array_slot :
  get (w_heap (slotted (VStr "points-0") (Obj Three.Material ∅ None))) (VRef 0) "points"
    = inr VUndef /\
  walk (w_heap (round_trip (slotted (VStr "points-0") (Obj Three.Material ∅ None))))
       (VRef 0) ["points"; "0"] = inr VUndef /\
  isArray (w_heap (round_trip (slotted (VStr "points-0") (Obj Three.Material ∅ None))))
          (VRef 3) = true /\
  walk (w_heap (round_trip (slotted (VStr "points-0") (Obj Three.Vector2 ∅ None))))
       (VRef 0) ["points"; "0"] = inr (VRef 2) /\
  (o_fields <$> w_heap (round_trip (slotted (VStr "points-0") (Obj Three.Vector2 ∅ None)))
                !! 0)
    = Some {["slot" := VNum 7; "points" := VRef 3; "0" := VUndef]}.
Proof. split_and!; vm_compute; reflexivity. Qed.

(** A function descriptor: the detach calls, on the child's object, the
    callback the attach function returned; what the slot holds afterwards
    is what that callback leaves there. *)
Lemma attach_detach_function_delegates :
  w_log (round_trip (slotted (VFun (Closure 0)) (Obj Three.Material ∅ None)))
    = [EvCall (Closure 0) VUndef [VRef 0; VRef 2];
       EvCall (Closure 1) (VRef 2) [VRef 0; VRef 2]] /\
  get (w_heap (round_trip (slotted (VFun (Closure 0)) (Obj Three.Material ∅ None))))
      (VRef 0) "slot" = inr VUndef /\
  w_log (round_trip (slotted (VFun (Closure 2)) (Obj Three.Material ∅ None)))
    = [EvCall (Closure 2) VUndef [VRef 0; VRef 2];
       EvCall (Closure 3) (VRef 2) [VRef 0; VRef 2]] /\
  get (w_heap (round_trip (slotted (VFun (Closure 2)) (Obj Three.Material ∅ None))))
      (VRef 0) "slot" = inr (VRef 2).
Proof. split_and!; vm_compute; reflexivity. Qed.

(** * Further properties of the code *)

(** ** Strings: [split] and the index pattern *)

Section Strings.

Implicit Types (s p d : string) (c a : ascii) (l : list string).

Lemma append_cons a s p : String a s +:+ p = String a (s +:+ p).
Proof. reflexivity. Qed.

Lemma append_nil s : EmptyString +:+ s = s.
Proof. reflexivity. Qed.

Lemma split_cons_inv c s : exists seg rest, Str.split c s = seg :: rest.
Proof.
  destruct (Str.split c s) as [|seg rest] eqn:E; [|eauto].
  by destruct (split_not_nil c s).
Qed.

Lemma join_cons c seg l :
  l <> [] -> Str.join c (seg :: l) = seg +:+ String c (Str.join c l).
Proof. by destruct l. Qed.

Lemma join_snoc c l d :
  l <> [] -> Str.join c (l ++ [d]) = Str.join c l +:+ String c d.
Proof.
  induction l as [|seg l IH]; [done|]. intros _.
  destruct l as [|seg' l]; [reflexivity|].
  change ((seg :: seg' :: l) ++ [d]) with (seg :: ((seg' :: l) ++ [d])).
  rewrite join_cons by (simpl; discriminate). rewrite IH by discriminate.
  rewrite (join_cons c seg (seg' :: l)) by discriminate.
  generalize (Str.join c (seg' :: l)). intros t. clear.
  induction seg as [|x seg IHs]; [reflexivity|].
  by rewrite !append_cons, IHs.
Qed.

Lemma ascii_eqb_true a c : Ascii.eqb a c = true -> a = c.
Proof. apply Ascii.eqb_eq. Qed.

Lemma split_app_dash c p d :
  Str.includes c d = false ->
  Str.split c (p +:+ String c d) = Str.split c p ++ [d].
Proof.
  intros Hd. induction p as [|a p IH];
    rewrite ?append_nil, ?append_cons; simpl.
  - rewrite Ascii.eqb_refl. by rewrite (split_plain c d Hd).
  - rewrite IH. destruct (Ascii.eqb a c); [done|].
    by destruct (split_cons_inv c p) as (seg & rest & ->).
Qed.

Lemma digits_no_dash d : Str.all_digits d = true -> Str.includes Str.dash d = false.
Proof.
  induction d as [|a d IH]; simpl; [done|].
  intros [Ha Hd]%andb_true_iff.
  destruct (Ascii.eqb a Str.dash) eqn:E; [|by apply IH].
  apply ascii_eqb_true in E. subst a. by vm_compute in Ha.
Qed.

Lemma is_number_digits d : Str.is_number d = true -> Str.all_digits d = true.
Proof. by destruct d. Qed.

End Strings.

Lemma join_split (s : string) : Str.join Str.dash (Str.split Str.dash s) = s.
Proof.
  induction s as [|a s IH]; simpl; [done|].
  destruct (Ascii.eqb a Str.dash) eqn:E.
  - apply ascii_eqb_true in E. subst a.
    rewrite join_cons by apply split_not_nil.
    by rewrite append_nil, IH.
  - destruct (Str.split Str.dash s) as [|seg rest] eqn:Es.
    { by destruct (split_not_nil Str.dash s). }
    rewrite <- IH. destruct rest; reflexivity.
Qed.

Lemma split_segments (s : string) :
  Forall (fun seg => Str.includes Str.dash seg = false) (Str.split Str.dash s).
Proof.
  induction s as [|a s IH]; simpl; [by repeat constructor|].
  destruct (Ascii.eqb a Str.dash) eqn:E; [by constructor|].
  destruct (Str.split Str.dash s) as [|seg rest] eqn:Es.
  { by destruct (split_not_nil Str.dash s). }
  inversion IH; subst. constructor; [|done]. simpl. by rewrite E.
Qed.

(** X1.  [key.split('-')] cuts at every dash and nowhere else: there is
    at least one segment, no segment contains a dash, and joining the
    segments with dashes gives the key back. *)
Theorem split_join (s : string) :
  Str.split Str.dash s <> [] /\
  Forall (fun seg => Str.includes Str.dash seg = false) (Str.split Str.dash s) /\
  Str.join Str.dash (Str.split Str.dash s) = s.
Proof.
  split_and!; [apply split_not_nil|apply split_segments|apply join_split].
Qed.

(** X2.  The index pattern [/-\d+$/] matches a key exactly when the key is
    a prefix, a dash and one or more digits, and then
    [key.replace(INDEX_REGEX, '')] is that prefix. *)
Theorem index_match_iff (key p : string) :
  index_match key = Some p <->
  exists d, Str.is_number d = true /\ key = p +:+ String Str.dash d.
Proof.
  split.
  - unfold index_match. intros H.
    pose proof (join_split key) as Hj.
    pose proof (chain_last _ (split_not_nil Str.dash key)) as Hc.
    set (chain := Str.split Str.dash key) in *.
    destruct chain as [|s1 [|s2 rest]] eqn:E; [done..|].
    destruct (Str.is_number (List.last (s1 :: s2 :: rest) EmptyString)) eqn:Hn;
      [|done].
    injection H as <-. eexists. split; [exact Hn|].
    rewrite <- Hj. rewrite Hc at 1. apply join_snoc. done.
  - intros (d & Hd & ->).
    assert (Hnd : Str.includes Str.dash d = false)
      by by apply digits_no_dash, is_number_digits.
    unfold index_match. rewrite (split_app_dash _ p d Hnd).
    destruct (split_cons_inv Str.dash p) as (seg & rest & Hs).
    rewrite last_last, removelast_last, Hd.
    rewrite (join_split p).
    rewrite Hs. by destruct rest.
Qed.

(** ** Links of the tree *)

Lemma bind_ret_eq {S A B} (m : M S A) (k : A -> M S B) s a s1 :
  m s = Ret a s1 -> bind m k s = k a s1.
Proof. unfold bind. by intros ->. Qed.

Lemma bind_returns {S A B} (m : M S A) (k : A -> M S B) s b s2 :
  bind m k s = Ret b s2 -> exists a s1, m s = Ret a s1 /\ k a s1 = Ret b s2.
Proof. unfold bind. destruct (m s) as [a s1|e s1]; [eauto|done]. Qed.

Lemma keeps_links_refl w : keeps_links w w.
Proof. intros m nd H. eauto. Qed.

Lemma keeps_links_trans w1 w2 w3 :
  keeps_links w1 w2 -> keeps_links w2 w3 -> keeps_links w1 w3.
Proof.
  intros H1 H2 m nd Hm. destruct (H1 m nd Hm) as (nd' & Hm' & ? & ?).
  destruct (H2 m nd' Hm') as (nd'' & ? & ? & ?). exists nd''. split_and!; congruence.
Qed.

Lemma keeps_nodes_links w w' : keeps_nodes w w' -> keeps_links w w'.
Proof. intros H m nd Hm. exists nd. by rewrite H. Qed.

Lemma keeps_links_mod w n nd f :
  w_nodes w !! n = Some nd -> linked f ->
  keeps_links w (with_nodes (<[n := f nd]> (w_nodes w)) w).
Proof.
  intros Hn Hf m nd0 Hm. simpl. destruct (decide (n = m)) as [->|Hne].
  - rewrite lookup_insert_eq. exists (f nd). simplify_eq. split; [done|apply Hf].
  - rewrite lookup_insert_ne by done. eauto.
Qed.

Lemma linked_set_object v : linked (set_object v).
Proof. done. Qed.
Lemma linked_set_prop key value : linked (set_prop key value).
Proof. done. Qed.

Section Stays.

Context (R : world -> world -> Prop).
Hypothesis R_refl : forall w, R w w.
Hypothesis R_trans : forall w1 w2 w3, R w1 w2 -> R w2 w3 -> R w1 w3.

Lemma stays_ok {A} (m : M world A) : ok R m -> stays R m.
Proof. intros H w. by apply ok_final. Qed.

Lemma stays_bind {A B} (m : M world A) (k : A -> M world B) :
  stays R m -> (forall a, stays R (k a)) -> stays R (bind m k).
Proof.
  intros Hm Hk w. unfold bind. specialize (Hm w).
  destruct (m w) as [a w1|e w1]; simpl in *; [|done].
  eapply R_trans; [exact Hm|apply Hk].
Qed.

Lemma stays_ret {A} (a : A) : stays R (ret a).
Proof. intros w. apply R_refl. Qed.

Lemma stays_throw {A} e : stays R (@throw world A e).
Proof. intros w. apply R_refl. Qed.

End Stays.

Section Linking.

Context (L : library).

Lemma stays_links_heap {A} (m : M world A) : ok keeps_nodes m -> stays keeps_links m.
Proof. intros H w. apply keeps_nodes_links. by apply ok_final. Qed.

Lemma stays_links_modNode n f : linked f -> stays keeps_links (modNode n f).
Proof.
  intros Hf w. unfold modNode. destruct (w_nodes w !! n) eqn:E; simpl.
  - by apply keeps_links_mod.
  - apply keeps_links_refl.
Qed.

Lemma instantiate_keeps_links rev child : stays keeps_links (instantiate L rev child).
Proof.
  intros w. destruct (w_nodes w !! child) as [c|] eqn:Hc.
  2: { unfold instantiate, bind, getNode. rewrite Hc. apply keeps_links_refl. }
  rewrite (instantiate_eq L rev child c w Hc).
  destruct (String.eqb (n_type c) "primitive").
  - destruct (truthy _); [|apply keeps_links_refl].
    by apply keeps_links_mod.
  - destruct (catalogue_get rev (w_catalogue w) (toPascalCase L (n_type c)))
      as [[target|[]]|]; try apply keeps_links_refl.
    2: { destruct (declared_args (w_heap w) c); apply keeps_links_refl. }
    destruct (declared_args (w_heap w) c) as [e|args]; [apply keeps_links_refl|].
    destruct (lib_new L target args (w_heap w)) as [l h|code h].
    + apply (keeps_links_mod (with_heap h w) child c (set_object (VRef l)) Hc).
      done.
    + by apply keeps_nodes_links.
Qed.

Lemma commit_keeps_links rev child : stays keeps_links (commit L rev child).
Proof.
  unfold commit.
  apply stays_bind; [exact keeps_links_trans|apply instantiate_keeps_links|intros _].
  apply stays_bind; [exact keeps_links_trans| |intros _].
  - unfold autoAttach.
    apply stays_bind; [exact keeps_links_trans|apply stays_links_heap, ok_getNode; frame_side|].
    intros c. destruct (bool_decide _); [|apply stays_ret, keeps_links_refl].
    apply stays_bind; [exact keeps_links_trans|apply stays_links_heap, ok_askH; frame_side|].
    intros g.
    apply stays_bind; [exact keeps_links_trans|apply stays_links_heap, ok_askH; frame_side|].
    intros mt. destruct g; [apply stays_links_modNode, linked_set_prop|].
    destruct mt; [apply stays_links_modNode, linked_set_prop|].
    apply stays_ret, keeps_links_refl.
  - unfold initialProps.
    apply stays_bind; [exact keeps_links_trans|apply stays_links_heap, ok_getNode; frame_side|].
    intros c.
    apply stays_bind; [exact keeps_links_trans|by intros w; apply keeps_nodes_links|intros _].
    apply stays_links_heap, ok_applyProps; frame_side.
Qed.

(** The tree after the placement, however it ends: the child points to
    the parent and is the last of the parent's children. *)
Lemma place_nodes rev parent child beforeChild w pn cn :
  w_nodes w !! parent = Some pn ->
  w_nodes w !! child = Some cn ->
  rev = RevA \/ beforeChild = None ->
  w_nodes (final (place L rev parent child beforeChild w)) =
    let p := if decide (parent = child) then set_parent (Some parent) cn else pn in
    <[parent := set_children (n_children p ++ [child]) p]>
      (<[child := set_parent (Some parent) cn]> (w_nodes w)).
Proof.
  intros Hp Hc Hrev. unfold place.
  set (w1 := with_nodes (<[child := set_parent (Some parent) cn]> (w_nodes w)) w).
  set (p := if decide (parent = child) then set_parent (Some parent) cn else pn).
  assert (Hp1 : w_nodes w1 !! parent = Some p).
  { unfold w1, p. simpl. destruct (decide (parent = child)) as [->|Hne].
    - by rewrite lookup_insert_eq.
    - by rewrite lookup_insert_ne. }
  set (w2 := with_nodes (<[parent := set_children (n_children p ++ [child]) p]> (w_nodes w1)) w1).
  erewrite bind_ret_eq; [|unfold modNode; rewrite Hc; reflexivity].
  fold w1.
  erewrite bind_ret_eq; [|unfold getNode; rewrite Hp1; reflexivity].
  erewrite bind_ret_eq; [|unfold modNode; rewrite Hp1; reflexivity].
  fold w2.
  assert (exists p2, w_nodes w2 !! parent = Some p2) as [p2 Hp2].
  { unfold w2. simpl. rewrite lookup_insert_eq. eauto. }
  assert (exists c2, w_nodes w2 !! child = Some c2) as [c2 Hc2].
  { unfold w2, w1. simpl. destruct (decide (parent = child)) as [->|Hne].
    - rewrite lookup_insert_eq. eauto.
    - rewrite lookup_insert_ne by done. rewrite lookup_insert_eq. eauto. }
  erewrite bind_ret_eq; [|unfold getNode; rewrite Hp2; reflexivity].
  erewrite bind_ret_eq; [|unfold getNode; rewrite Hc2; reflexivity].
  match goal with
  | |- w_nodes (final (?m w2)) = _ =>
      assert (Hok : ok keeps_nodes m); [|exact (ok_final keeps_nodes m w2 Hok)]
  end.
  destruct Hrev as [->| ->].
  - repeat first [apply ok_attach; frame_side | ok_step].
  - destruct rev; simpl; repeat first [apply ok_attach; frame_side | ok_step].
Qed.

End Linking.

Section LinkingOps.

Context (L : library).

Lemma insertNode_nodes rev parent child beforeChild w w' pn :
  w_nodes w !! parent = Some pn ->
  rev = RevA \/ beforeChild = None ->
  insertNode L rev parent child beforeChild w = Ret () w' ->
  exists cn pnc cnc,
    w_nodes w !! child = Some cn /\
    n_parent pnc = n_parent pn /\ n_children pnc = n_children pn /\
    n_parent cnc = n_parent cn /\ n_children cnc = n_children cn /\
    (forall m nd, m <> parent -> m <> child -> w_nodes w !! m = Some nd ->
       exists nd', w_nodes w' !! m = Some nd' /\
                   n_parent nd' = n_parent nd /\ n_children nd' = n_children nd) /\
    w_nodes w' !! child
      = Some (if decide (parent = child)
              then set_children (n_children cnc ++ [child]) (set_parent (Some parent) cnc)
              else set_parent (Some parent) cnc) /\
    w_nodes w' !! parent
      = Some (if decide (parent = child)
              then set_children (n_children cnc ++ [child]) (set_parent (Some parent) cnc)
              else set_children (n_children pnc ++ [child]) pnc).
Proof.
  intros Hp Hrev Hins. unfold insertNode in Hins.
  apply bind_returns in Hins as (c & w0 & Hget & Hins).
  unfold getNode in Hget. destruct (w_nodes w !! child) as [cn|] eqn:Hc; [|done].
  injection Hget as <- <-.
  apply bind_returns in Hins as ([] & wc & Hcommit & Hplace).
  assert (Hlinks : keeps_links w wc).
  { destruct (negb (truthy (n_object cn))).
    - pose proof (commit_keeps_links L rev child w) as H. by rewrite Hcommit in H.
    - injection Hcommit as <-. apply keeps_links_refl. }
  destruct (Hlinks parent pn Hp) as (pnc & Hpc & Hpp & Hpch).
  destruct (Hlinks child cn Hc) as (cnc & Hcc & Hcp & Hcch).
  pose proof (place_nodes L rev parent child beforeChild wc pnc cnc Hpc Hcc Hrev) as Hn.
  rewrite Hplace in Hn. simpl in Hn.
  exists cn, pnc, cnc. split_and!; [done..| | |].
  - intros m nd Hmp Hmc Hm. destruct (Hlinks m nd Hm) as (nd' & Hm' & ? & ?).
    exists nd'. rewrite Hn. by rewrite !lookup_insert_ne by done.
  - rewrite Hn. destruct (decide (parent = child)) as [->|Hne].
    + by rewrite lookup_insert_eq.
    + rewrite lookup_insert_ne by done. by rewrite lookup_insert_eq.
  - rewrite Hn, lookup_insert_eq. by destruct (decide (parent = child)).
Qed.

Lemma insertNode_appends_links rev parent child beforeChild w w' pn :
  w_nodes w !! parent = Some pn ->
  rev = RevA \/ beforeChild = None ->
  insertNode L rev parent child beforeChild w = Ret () w' ->
  exists cn', w_nodes w' !! child = Some cn' /\
  exists pn', w_nodes w' !! parent = Some pn' /\
              n_children pn' = n_children pn ++ [child].
Proof.
  intros Hp Hrev Hins.
  destruct (insertNode_nodes _ _ _ _ _ _ _ Hp Hrev Hins)
    as (cn & pnc & cnc & Hc & Hpp & Hpch & Hcp & Hcch & _ & Hc' & Hp').
  eexists. split; [exact Hc'|]. eexists. split; [exact Hp'|].
  destruct (decide (parent = child)) as [->|Hne]; simpl; [|by rewrite Hpch].
  simplify_eq. by rewrite Hcch.
Qed.

(** X4.  [insertNode] links the child at the END of [parent.children],
    whatever [beforeChild] is, and points [child.parent] at the parent;
    the links of every other node are as they were.  (For the later
    revision with a [beforeChild], that sibling may be removed.) *)
Theorem insertNode_appends_child rev parent child beforeChild w w' pn :
  w_nodes w !! parent = Some pn ->
  rev = RevA \/ beforeChild = None ->
  insertNode L rev parent child beforeChild w = Ret () w' ->
  getParentNode child w' = Ret (Some parent) w' /\
  (exists pn', w_nodes w' !! parent = Some pn' /\
               n_children pn' = n_children pn ++ [child]) /\
  (n_children pn = [] -> getFirstChild parent w' = Ret (Some child) w') /\
  (forall m nd, m <> parent -> m <> child -> w_nodes w !! m = Some nd ->
     exists nd', w_nodes w' !! m = Some nd' /\
                 n_parent nd' = n_parent nd /\ n_children nd' = n_children nd).
Proof.
  intros Hp Hrev Hins.
  destruct (insertNode_nodes _ _ _ _ _ _ _ Hp Hrev Hins)
    as (cn & pnc & cnc & Hc & Hpp & Hpch & Hcp & Hcch & Hothers & Hc' & Hp').
  destruct (insertNode_appends_links _ _ _ _ _ _ _ Hp Hrev Hins)
    as (cn' & _ & Hparent).
  split_and!.
  - unfold getParentNode, bind, getNode. rewrite Hc'.
    by destruct (decide (parent = child)).
  - exact Hparent.
  - intros Hnil. destruct Hparent as (pn' & Hpn' & Hch).
    unfold getFirstChild, bind, getNode. rewrite Hpn', Hch, Hnil. done.
  - exact Hothers.
Qed.

End LinkingOps.

Lemma insertNode_appends_child_witness :
  getParentNode 1 (exec (insertNode Three.lib RevB 0 1 None) mesh_created)
    = Ret (Some 0) (exec (insertNode Three.lib RevB 0 1 None) mesh_created) /\
  (exists pn', w_nodes (exec (insertNode Three.lib RevB 0 1 None) mesh_created) !! 0
                 = Some pn' /\
               n_children pn' = n_children (Node "" None [] (VRef 0) []) ++ [1]) /\
  (n_children (Node "" None [] (VRef 0) []) = [] ->
   getFirstChild 0 (exec (insertNode Three.lib RevB 0 1 None) mesh_created)
     = Ret (Some 1) (exec (insertNode Three.lib RevB 0 1 None) mesh_created)) /\
  (forall m nd, m <> 0 -> m <> 1 -> w_nodes mesh_created !! m = Some nd ->
     exists nd', w_nodes (exec (insertNode Three.lib RevB 0 1 None) mesh_created) !! m
                   = Some nd' /\
                 n_parent nd' = n_parent nd /\ n_children nd' = n_children nd).
Proof.
  apply (insertNode_appends_child Three.lib RevB 0 1 None mesh_created
           (exec (insertNode Three.lib RevB 0 1 None) mesh_created)
           (Node "" None [] (VRef 0) [])).
  - vm_compute; reflexivity.
  - right; reflexivity.
  - vm_compute; reflexivity.
Defined.

(** ** Insert, then remove *)

Lemma indexOf_lt {A} `{EqDecision A} (x : A) (l : list A) i :
  indexOf x l = Some i -> i < length l.
Proof. intros H. eapply lookup_lt_Some, indexOf_Some, H. Qed.

Lemma indexOf_snoc {A} `{EqDecision A} (x : A) (l : list A) :
  indexOf x (l ++ [x]) = Some (default (length l) (indexOf x l)).
Proof.
  induction l as [|y l IH]; simpl.
  - by rewrite decide_True.
  - destruct (decide (y = x)); [done|]. rewrite IH. simpl.
    by destruct (indexOf x l).
Qed.

Lemma splice_remove_snoc {A} (x : A) (l : list A) i :
  i < length l -> splice_remove i (l ++ [x]) = splice_remove i l ++ [x].
Proof.
  intros Hi. unfold splice_remove.
  rewrite take_app_le by lia. rewrite drop_app_le by lia. by rewrite <- app_assoc.
Qed.

Lemma splice_remove_last {A} (x : A) (l : list A) :
  splice_remove (length l) (l ++ [x]) = l.
Proof.
  unfold splice_remove. rewrite take_app_length.
  rewrite drop_app_ge by lia. rewrite drop_ge by (simpl; lia).
  by rewrite app_nil_r.
Qed.

Section InsertRemove.

Context (L : library).

(** X5.  Inserting a child (no [beforeChild]) and removing it again
    clears [child.parent] and takes out of [parent.children] the FIRST
    occurrence of the child: the list is back as it was when the child
    was not in it; a child that was already in the list is left in it, at
    the end. *)
Theorem insertNode_removeNode_children rev parent child w w1 w2 pn :
  w_nodes w !! parent = Some pn ->
  insertNode L rev parent child None w = Ret () w1 ->
  removeNode L rev parent child w1 = Ret () w2 ->
  getParentNode child w2 = Ret None w2 /\
  exists pn2, w_nodes w2 !! parent = Some pn2 /\
    n_children pn2 = match indexOf child (n_children pn) with
                     | None => n_children pn
                     | Some i => splice_remove i (n_children pn) ++ [child]
                     end.
Proof.
  intros Hp Hins Hrem.
  destruct (insertNode_appends_links L rev parent child None w w1 pn Hp
              (or_intror eq_refl) Hins) as (cn1 & Hc1 & (pn1 & Hp1 & Hch1)).
  unfold removeNode in Hrem.
  apply bind_returns in Hrem as ([] & wa & Hunlink & Hrem).
  apply bind_returns in Hrem as ([] & wb & Hobj & Hdisp).
  destruct (unlinkChild_spec parent child pn1 cn1 w1 Hp1 Hc1)
    as (w0 & cn0 & pn0 & Hun & _ & _ & Hc0 & Hpar0 & _ & _ & _ & Hp0 & Hch0).
  rewrite Hun in Hunlink. injection Hunlink as <-.
  pose proof (removeObject_keeps_nodes L rev parent child w0) as Hb.
  rewrite Hobj in Hb. simpl in Hb.
  pose proof (disposeChild_keeps_nodes L rev child wb) as Hd.
  rewrite Hdisp in Hd. simpl in Hd.
  split.
  - unfold getParentNode, bind, getNode. rewrite Hd, Hb, Hc0. by rewrite Hpar0.
  - exists pn0. rewrite Hd, Hb. split; [done|].
    rewrite Hch0, Hch1, indexOf_snoc.
    destruct (indexOf child (n_children pn)) as [i|] eqn:Hi; simpl.
    + apply splice_remove_snoc. by eapply indexOf_lt.
    + apply splice_remove_last.
Qed.

End InsertRemove.

Lemma insertNode_removeNode_children_witness :
  getParentNode 1 (exec (insertNode Three.lib RevB 0 1 None ;;;
                         removeNode Three.lib RevB 0 1) mesh_created)
    = Ret None (exec (insertNode Three.lib RevB 0 1 None ;;;
                      removeNode Three.lib RevB 0 1) mesh_created) /\
  exists pn2,
    w_nodes (exec (insertNode Three.lib RevB 0 1 None ;;;
                   removeNode Three.lib RevB 0 1) mesh_created) !! 0 = Some pn2 /\
    n_children pn2 =
      match indexOf 1 (n_children (Node "" None [] (VRef 0) [])) with
      | None => n_children (Node "" None [] (VRef 0) [])
      | Some i => splice_remove i (n_children (Node "" None [] (VRef 0) [])) ++ [1]
      end.
Proof.
  apply (insertNode_removeNode_children Three.lib RevB 0 1 mesh_created
           (exec (insertNode Three.lib RevB 0 1 None) mesh_created)
           (exec (insertNode Three.lib RevB 0 1 None ;;;
                  removeNode Three.lib RevB 0 1) mesh_created)
           (Node "" None [] (VRef 0) [])).
  - vm_compute; reflexivity.
  - vm_compute; reflexivity.
  - vm_compute; reflexivity.
Defined.

(** ** Declared properties *)

Lemma prop_get_set_eq props key value :
  prop_get (prop_set props key value) key = value.
Proof.
  induction props as [|[k v] rest IH]; simpl.
  - by rewrite String.eqb_refl.
  - destruct (String.eqb k key) eqn:E; simpl; by rewrite E.
Qed.


Section Properties.

Context (L : library).


(** X7.  On a node that has no object yet, and for a reserved key on any
    node, [setProperty] only records the value: it returns, and the heap
    and the log of calls are untouched (a change of [attach], [args] or
    [object] after the commit reaches no object). *)
Theorem setProperty_only_records rev node key value w nd :
  w_nodes w !! node = Some nd ->
  truthy (n_object nd) = false \/ reserved rev key = true ->
  setProperty L rev node key value w
  = Ret () (with_nodes (<[node := set_prop key value nd]> (w_nodes w)) w).
Proof.
  intros Hn Hcase. unfold setProperty, bind, modNode, getNode. rewrite Hn. simpl.
  rewrite lookup_insert_eq. simpl.
  destruct (truthy (n_object nd)) eqn:Ht; [|done].
  destruct Hcase as [?|Hr]; [done|]. by rewrite Hr.
Qed.

End Properties.


Lemma setProperty_only_records_witness :
  setProperty Three.lib RevB 1 "attach" (VStr "material") two_meshes
  = Ret () (with_nodes
              (<[1 := set_prop "attach" (VStr "material")
                        (Node "mesh" (Some 0) [] (VRef 3) [("args", VRef 2)])]>
                 (w_nodes two_meshes)) two_meshes).
Proof.
  apply (setProperty_only_records Three.lib RevB 1 "attach" (VStr "material") two_meshes
           (Node "mesh" (Some 0) [] (VRef 3) [("args", VRef 2)])).
  - vm_compute; reflexivity.
  - right. vm_compute; reflexivity.
Defined.

(** ** Catalogue *)

Lemma extend_fold_notin (objects : list (string * entry)) (c : gmap string entry) k :
  k ∉ objects.*1 ->
  foldl (fun c kv => <[kv.1 := kv.2]> c) c objects !! k = c !! k.
Proof.
  revert c. induction objects as [|[k0 c0] rest IH]; intros c Hk; simpl; [done|].
  simpl in Hk. apply not_elem_of_cons in Hk as [Hne Hk].
  rewrite IH by done. by rewrite lookup_insert_ne.
Qed.

Lemma extend_fold_is_Some (objects : list (string * entry)) (c : gmap string entry) k :
  is_Some (c !! k) ->
  is_Some (foldl (fun c kv => <[kv.1 := kv.2]> c) c objects !! k).
Proof.
  revert c. induction objects as [|[k0 c0] rest IH]; intros c Hk; simpl; [done|].
  apply IH. destruct (decide (k0 = k)) as [->|Hne].
  - rewrite lookup_insert_eq. eauto.
  - by rewrite lookup_insert_ne.
Qed.

(** X9.  [extend] is [Object.assign] on the catalogue.  In the later
    revision it always returns, and only adds and overwrites: a key that
    was bound stays bound, a key the argument does not name keeps what it
    held, a key the argument names gets the value of its last entry.  In the
    earlier revision the catalogue is the module namespace of three.js,
    which cannot be written: [extend] of an argument with at least one key
    throws a TypeError and binds nothing (with no key it returns).  In
    both, the heap, the tree and the log are untouched. *)
Theorem extend_assigns (rev : revision) (objects : list (string * entry)) (w : world) :
  extend RevB objects w = Ret () (exec (extend RevB objects) w) /\
  (forall k, is_Some (w_catalogue w !! k) ->
             is_Some (w_catalogue (exec (extend RevB objects) w) !! k)) /\
  (forall k, k ∉ objects.*1 ->
             w_catalogue (exec (extend RevB objects) w) !! k = w_catalogue w !! k) /\
  (forall pre k c post, objects = pre ++ (k, c) :: post -> k ∉ post.*1 ->
             w_catalogue (exec (extend RevB objects) w) !! k = Some c) /\
  (objects <> [] -> extend RevA objects w = Throw TypeError w) /\
  extend RevA [] w = Ret () w /\
  w_catalogue (exec (extend RevA objects) w) = w_catalogue w /\
  w_heap (exec (extend rev objects) w) = w_heap w /\
  w_nodes (exec (extend rev objects) w) = w_nodes w /\
  w_log (exec (extend rev objects) w) = w_log w.
Proof.
  split_and!; try reflexivity.
  - intros k Hk. by apply extend_fold_is_Some.
  - intros k Hk. by apply extend_fold_notin.
  - intros pre k c post -> Hk. unfold exec, extend. simpl.
    rewrite foldl_app. simpl. rewrite extend_fold_notin by done.
    apply lookup_insert_eq.
  - intros Hne. by destruct objects.
  - by destruct objects.
  - destruct rev; [by destruct objects|done].
  - destruct rev; [by destruct objects|done].
  - destruct rev; [by destruct objects|done].
Qed.

(** X10.  Once [extend] has bound the (capitalised) type of an element
    that is no primitive to a constructor, no insert of that element
    throws one of the renderer's own errors: what it can still throw comes
    from the runtime or the library. *)
Theorem extend_then_insertNode (L : library) rev parent child beforeChild nd target
    pre post w w1 e w' :
  w_nodes w !! child = Some nd ->
  String.eqb (n_type nd) "primitive" = false ->
  toPascalCase L (n_type nd) ∉ post.*1 ->
  extend rev (pre ++ (toPascalCase L (n_type nd), Constructor target) :: post) w
    = Ret () w1 ->
  insertNode L rev parent child beforeChild w1 = Throw e w' ->
  host_error e = false.
Proof.
  intros Hc Hprim Hpost Hext Hthrow.
  destruct (host_error e) eqn:He; [|done].
  destruct rev; [by destruct pre|].
  injection Hext as <-.
  set (w0 := with_catalogue _ w) in *.
  assert (Hc0 : w_nodes w0 !! child = Some nd) by exact Hc.
  destruct (insertNode_host_error L RevB parent child beforeChild nd w0 e w'
              Hc0 Hthrow He) as [_ Hcases].
  unfold missing_object, unknown_type in Hcases. rewrite Hprim in Hcases.
  cbn [negb andb orb] in Hcases.
  unfold w0, catalogue_get in Hcases. cbn [w_catalogue with_catalogue] in Hcases.
  rewrite foldl_app in Hcases. cbn [foldl fst snd] in Hcases.
  rewrite extend_fold_notin in Hcases by done.
  by rewrite lookup_insert_eq in Hcases.
Qed.

Lemma extend_then_insertNode_witness :
  insertNode Three.lib RevB 0 1 None
    (exec (extend RevB [("FooBar", Constructor Three.Mesh)])
       (exec (setProperty Three.lib RevB 1 "a-b" (VNum 1)) unknown_created))
  = Throw TypeError
      (exec (insertNode Three.lib RevB 0 1 None)
         (exec (extend RevB [("FooBar", Constructor Three.Mesh)])
            (exec (setProperty Three.lib RevB 1 "a-b" (VNum 1)) unknown_created))) /\
  host_error TypeError = false.
Proof.
  split; [vm_compute; reflexivity|].
  refine (extend_then_insertNode Three.lib RevB 0 1 None
           (Node "fooBar" None [] VNull [("args", VRef 2); ("a-b", VNum 1)])
           Three.Mesh [] []
           (exec (setProperty Three.lib RevB 1 "a-b" (VNum 1)) unknown_created)
           (exec (extend RevB [("FooBar", Constructor Three.Mesh)])
              (exec (setProperty Three.lib RevB 1 "a-b" (VNum 1)) unknown_created))
           TypeError
           (exec (insertNode Three.lib RevB 0 1 None)
              (exec (extend RevB [("FooBar", Constructor Three.Mesh)])
                 (exec (setProperty Three.lib RevB 1 "a-b" (VNum 1)) unknown_created)))
           _ _ _ _ _).
  - vm_compute; reflexivity.
  - vm_compute; reflexivity.
  - vm_compute. apply not_elem_of_nil.
  - vm_compute; reflexivity.
  - vm_compute; reflexivity.
Defined.

(** ** Path Resolver *)

(** X11.  A path that goes on below a value that is [undefined] or [null]
    cannot be resolved: [resolve] throws a TypeError (nothing is created on
    the way). *)
Theorem resolve_through_nullish (h : heap) (root : val) (key : string)
    (prefix : list string) (k : string) (rest : list string) (v : val) :
  Str.split Str.dash key = prefix ++ k :: rest ->
  walk h root prefix = inr v ->
  nullish v = true ->
  resolve h root key = inl TypeError.
Proof.
  intros Hsplit Hw Hv.
  assert (Hchain : walk h root (Str.split Str.dash key) = inl TypeError).
  { rewrite Hsplit, walk_app, Hw. simpl. by destruct v. }
  unfold resolve.
  destruct (get h root key) as [e|target] eqn:Hg.
  - destruct root; simpl in Hg; try done; try congruence.
    destruct (h !! l) eqn:Hl; [done|].
    destruct prefix as [|k0 prefix]; simpl in Hw; [by simplify_eq|].
    by rewrite Hl in Hw.
  - destruct (Str.includes Str.dash key) eqn:Hi; simpl.
    + by rewrite Hchain.
    + rewrite (split_plain _ _ Hi) in Hsplit.
      destruct prefix as [|k0 [|k1 prefix]]; simplify_eq.
      simpl in Hw. simplify_eq. by destruct v.
Qed.

Lemma resolve_through_nullish_witness :
  resolve atomic_heap (VRef 0) "x-y" = inl TypeError.
Proof.
  apply (resolve_through_nullish atomic_heap (VRef 0) "x-y" ["x"] "y" [] VUndef);
    reflexivity.
Defined.

(** ** Placement by attachment *)

Lemma keeps_log_refl w : keeps_log w w.
Proof. done. Qed.
Lemma keeps_log_trans w1 w2 w3 : keeps_log w1 w2 -> keeps_log w2 w3 -> keeps_log w1 w3.
Proof. unfold keeps_log. congruence. Qed.
Lemma keeps_log_heap w h : keeps_log w (with_heap h w).
Proof. done. Qed.

Section Attached.

Context (L : library).

(** A child that declares an attachment is placed by [attach] alone: the
    graph branch is not run. *)
Lemma place_attached rev parent child beforeChild w pn cn :
  w_nodes w !! parent = Some pn ->
  w_nodes w !! child = Some cn ->
  truthy (prop_get (n_props cn) "attach") = true ->
  place L rev parent child beforeChild w =
    let p := if decide (parent = child) then set_parent (Some parent) cn else pn in
    attach L parent child
      (with_nodes (<[parent := set_children (n_children p ++ [child]) p]>
                     (<[child := set_parent (Some parent) cn]> (w_nodes w))) w).
Proof.
  intros Hp Hc Ha. unfold place.
  set (w1 := with_nodes (<[child := set_parent (Some parent) cn]> (w_nodes w)) w).
  set (p := if decide (parent = child) then set_parent (Some parent) cn else pn).
  assert (Hp1 : w_nodes w1 !! parent = Some p).
  { unfold w1, p. simpl. destruct (decide (parent = child)) as [->|Hne].
    - by rewrite lookup_insert_eq.
    - by rewrite lookup_insert_ne. }
  set (w2 := with_nodes (<[parent := set_children (n_children p ++ [child]) p]> (w_nodes w1)) w1).
  erewrite bind_ret_eq; [|unfold modNode; rewrite Hc; reflexivity].
  fold w1.
  erewrite bind_ret_eq; [|unfold getNode; rewrite Hp1; reflexivity].
  erewrite bind_ret_eq; [|unfold modNode; rewrite Hp1; reflexivity].
  fold w2.
  assert (Hp2 : w_nodes w2 !! parent = Some (set_children (n_children p ++ [child]) p)).
  { unfold w2. simpl. by rewrite lookup_insert_eq. }
  assert (exists c2, w_nodes w2 !! child = Some c2 /\ n_props c2 = n_props cn)
    as (c2 & Hc2 & Hprops).
  { unfold w2, w1, p. simpl. destruct (decide (parent = child)) as [->|Hne].
    - rewrite lookup_insert_eq. eauto.
    - rewrite lookup_insert_ne by done. rewrite lookup_insert_eq. eauto. }
  erewrite bind_ret_eq; [|unfold getNode; rewrite Hp2; reflexivity].
  erewrite bind_ret_eq; [|unfold getNode; rewrite Hc2; reflexivity].
  by rewrite Hprops, Ha.
Qed.

Lemma attach_string_silent parent child w cn a :
  w_nodes w !! child = Some cn ->
  prop_get (n_props cn) "attach" = VStr a ->
  keeps_log w (final (attach L parent child w)).
Proof.
  intros Hc Ha. unfold attach.
  destruct (w_nodes w !! parent) as [pn|] eqn:Hp.
  2: { unfold bind at 1, getNode. by rewrite Hp. }
  erewrite bind_ret_eq; [|unfold getNode; rewrite Hp; reflexivity].
  erewrite bind_ret_eq; [|unfold getNode; rewrite Hc; reflexivity].
  rewrite Ha.
  pose proof keeps_log_refl as Hrefl.
  pose proof keeps_log_trans as Htrans.
  pose proof keeps_log_heap as Hheap.
  apply (ok_final keeps_log). repeat ok_step.
Qed.

(** X12.  A committed child that declares a path as its attachment is
    inserted without any call into the library: it is written into the
    slot of the path and never handed to [Object3D#add]. *)
Theorem insertNode_attached_makes_no_call rev parent child beforeChild w pn cn a :
  w_nodes w !! parent = Some pn ->
  w_nodes w !! child = Some cn ->
  truthy (n_object cn) = true ->
  prop_get (n_props cn) "attach" = VStr a ->
  a <> "" ->
  w_log (exec (insertNode L rev parent child beforeChild) w) = w_log w.
Proof.
  intros Hp Hc Hobj Ha Hne. unfold exec.
  rewrite (insertNode_committed L rev parent child beforeChild cn w Hc Hobj).
  rewrite (place_attached rev parent child beforeChild w pn cn Hp Hc).
  2: { rewrite Ha. simpl. apply negb_true_iff.
       destruct (String.eqb a "") eqn:E; [|done]. by apply String.eqb_eq in E. }
  cbv zeta.
  set (w2 := with_nodes _ w).
  assert (exists c2, w_nodes w2 !! child = Some c2 /\ n_props c2 = n_props cn)
    as (c2 & Hc2 & Hprops).
  { unfold w2. simpl. destruct (decide (parent = child)) as [->|Hnpc].
    - rewrite lookup_insert_eq. eauto.
    - rewrite lookup_insert_ne by done. rewrite lookup_insert_eq. eauto. }
  rewrite <- Hprops in Ha.
  exact (attach_string_silent parent child w2 c2 a Hc2 Ha).
Qed.

End Attached.

Lemma insertNode_attached_makes_no_call_witness :
  w_log (exec (insertNode Three.lib RevB 0 1 None) tinted) = w_log tinted.
Proof.
  apply (insertNode_attached_makes_no_call Three.lib RevB 0 1 None tinted
           (Node "mesh" None [] (VRef 0) [])
           (Node "color" None [] (VRef 2) [("attach", VStr "userData-tint")])
           "userData-tint"); try (vm_compute; reflexivity).
  discriminate.
Defined.

(** ** Auto-attach of geometries and materials *)

Lemma prop_set_reserved rev props key value :
  reserved rev key = true ->
  Forall (fun kv => reserved rev kv.1 = true) props ->
  Forall (fun kv => reserved rev kv.1 = true) (prop_set props key value).
Proof.
  intros Hk. induction 1 as [|[k v] rest Hr Hrest IH]; simpl.
  - constructor; [exact Hk|constructor].
  - destruct (String.eqb k key); constructor; assumption.
Qed.

Lemma elem_of_insert_by_index i kv l x :
  x ∈ insert_by_index i kv l -> x = (i, kv) \/ x ∈ l.
Proof.
  induction l as [|[j kv'] rest IH]; simpl.
  - intros ->%list_elem_of_singleton. by left.
  - destruct (i <=? j)%Z.
    + intros [->|H]%elem_of_cons; [by left|by right].
    + intros [->|H]%elem_of_cons; [right; by left|].
      destruct (IH H) as [->|?]; [by left|right; by right].
Qed.

Lemma elem_of_index_entries props x :
  x ∈ index_entries props -> x.2 ∈ props.
Proof.
  induction props as [|kv rest IH]; simpl; [by intros ?%elem_of_nil|].
  destruct (Str.array_index kv.1) as [i|].
  - intros [->|H]%elem_of_insert_by_index; [by left|right; by apply IH].
  - intros H. right. by apply IH.
Qed.

(** [for ... in] visits keys of the object, each with its value. *)
Lemma elem_of_for_in props kv : kv ∈ for_in props -> kv ∈ props.
Proof.
  unfold for_in. intros [H|H]%elem_of_app.
  - apply list_elem_of_fmap in H as (x & -> & Hx). by apply elem_of_index_entries.
  - apply list_elem_of_In, List.filter_In in H. apply list_elem_of_In. tauto.
Qed.

Lemma Forall_for_in (P : string * val -> Prop) props :
  Forall P props -> Forall P (for_in props).
Proof.
  rewrite !Forall_forall. intros H kv Hkv. by apply H, elem_of_for_in.
Qed.

Section AutoAttach.

Context (L : library).

(** Attach on a path without separator, parent object and child object
    being two live objects: the slot gets the child's object, which
    remembers what the slot held. *)
Lemma attach_plain_spec parent child pn cn a lp lc op oc w :
  w_nodes w !! parent = Some pn ->
  w_nodes w !! child = Some cn ->
  prop_get (n_props cn) "attach" = VStr a ->
  Str.includes Str.dash a = false ->
  n_object pn = VRef lp -> n_object cn = VRef lc -> lp <> lc ->
  w_heap w !! lp = Some op -> w_heap w !! lc = Some oc ->
  attach L parent child w =
  Ret () (with_heap (<[lp := obj_set op a (VRef lc)]>
                       (<[lc := obj_set oc "__previousAttach" (obj_get op a)]> (w_heap w)))
                    w).
Proof.
  intros Hp Hc Ha Hplain Hop Hoc Hne Hlp Hlc.
  unfold attach, bind, getNode. rewrite Hp, Hc, Ha.
  rewrite (INDEX_REGEX_plain _ Hplain). unfold ret, readH, writeH.
  rewrite Hop, Hoc.
  rewrite (resolve_plain (w_heap w) (VRef lp) a (obj_get op a) Hplain)
    by (simpl; by rewrite Hlp).
  cbn [r_root r_key]. simpl. rewrite Hlp, Hlc. simpl.
  rewrite lookup_insert_ne by done. by rewrite Hlp.
Qed.

(** X13.  The first insert of an element that declares no attachment and
    whose constructed object is a buffer geometry (or else a material)
    attaches that object at [geometry] (or [material]) of the parent's
    object: the declaration is defaulted before the placement.  Stated
    for an element whose declared props are all reserved. *)
Theorem insertNode_auto_attaches rev parent child beforeChild w pn cn
    target args l h1 o lp op :
  w_nodes w !! parent = Some pn ->
  w_nodes w !! child = Some cn ->
  parent <> child ->
  truthy (n_object cn) = false ->
  String.eqb (n_type cn) "primitive" = false ->
  catalogue_get rev (w_catalogue w) (toPascalCase L (n_type cn))
    = Some (Constructor target) ->
  spread (w_heap w) (prop_get (n_props cn) "args") = inr args ->
  prop_get (n_props cn) "attach" = VUndef ->
  Forall (fun kv => reserved rev kv.1 = true) (n_props cn) ->
  lib_new L target args (w_heap w) = Done l h1 ->
  h1 !! l = Some o ->
  "BufferGeometry" ∈ c_bases (o_class o) \/ "Material" ∈ c_bases (o_class o) ->
  n_object pn = VRef lp -> lp <> l -> h1 !! lp = Some op ->
  let slot := if bool_decide ("BufferGeometry" ∈ c_bases (o_class o))
              then "geometry" else "material" in
  exists w' cn',
    insertNode L rev parent child beforeChild w = Ret () w' /\
    get (w_heap w') (VRef lp) slot = inr (VRef l) /\
    get (w_heap w') (VRef l) "__previousAttach" = inr (obj_get op slot) /\
    w_nodes w' !! child = Some cn' /\
    n_object cn' = VRef l /\
    prop_get (n_props cn') "attach" = VStr slot /\
    w_log w' = w_log w ++ [EvNew child target args; EvInitialProps child].
Proof.
  intros Hp Hc Hpc Hobj Hprim Hcat Hargs Hatt Hres Hnew Hl Hcls Hpo Hne Hlp slot.
  assert (Hdeclared : declared_args (w_heap w) cn = inr args).
  { unfold declared_args. by destruct (prop_get (n_props cn) "args"). }
  (* instantiate *)
  set (c1 := set_object (VRef l) cn).
  set (w1 := with_log (w_log w ++ [EvNew child target args])
               (with_nodes (<[child := c1]> (w_nodes w)) (with_heap h1 w))).
  assert (Hinst : instantiate L rev child w = Ret () w1).
  { by rewrite (instantiate_eq L rev child cn w Hc), Hprim, Hcat, Hdeclared, Hnew. }
  (* auto-attach *)
  set (c2 := set_prop "attach" (VStr slot) c1).
  set (w2 := with_nodes (<[child := c2]> (w_nodes w1)) w1).
  assert (Hc1 : w_nodes w1 !! child = Some c1).
  { unfold w1. simpl. by rewrite lookup_insert_eq. }
  assert (Hauto : autoAttach child w1 = Ret () w2).
  { unfold autoAttach. erewrite bind_ret_eq; [|unfold getNode; rewrite Hc1; reflexivity].
    change (n_props c1) with (n_props cn). rewrite Hatt.
    rewrite bool_decide_eq_true_2 by done.
    unfold bind, askH, instanceOf. change (n_object c1) with (VRef l).
    change (w_heap w1) with h1. cbv beta iota. rewrite Hl.
    unfold w2, c2, slot.
    destruct (bool_decide ("BufferGeometry" ∈ c_bases (o_class o))) eqn:Eg.
    - unfold modNode. by rewrite Hc1.
    - apply bool_decide_eq_false in Eg. destruct Hcls as [?|Hm]; [done|].
      rewrite bool_decide_eq_true_2 by done. unfold modNode. by rewrite Hc1. }
  (* initial props *)
  set (w3 := with_log (w_log w2 ++ [EvInitialProps child]) w2).
  assert (Hc2 : w_nodes w2 !! child = Some c2).
  { unfold w2. simpl. by rewrite lookup_insert_eq. }
  assert (Hattach_reserved : reserved rev "attach" = true) by by destruct rev.
  assert (Hinit : initialProps L rev child w2 = Ret () w3).
  { unfold initialProps. erewrite bind_ret_eq; [|unfold getNode; rewrite Hc2; reflexivity].
    erewrite bind_ret_eq; [|reflexivity]. fold w3.
    apply applyProps_reserved_only. unfold c2, c1. simpl.
    by apply Forall_for_in, prop_set_reserved. }
  (* placement *)
  assert (Hp3 : w_nodes w3 !! parent = Some pn).
  { unfold w3, w2, w1. simpl. by rewrite !lookup_insert_ne by done. }
  assert (Hc3 : w_nodes w3 !! child = Some c2) by exact Hc2.
  assert (Ha2 : prop_get (n_props c2) "attach" = VStr slot).
  { unfold c2. simpl. apply prop_get_set_eq. }
  assert (Hslot : Str.includes Str.dash slot = false).
  { unfold slot. by destruct (bool_decide _). }
  assert (Htruthy : truthy (prop_get (n_props c2) "attach") = true).
  { rewrite Ha2. unfold slot. by destruct (bool_decide _). }
  pose proof (place_attached L rev parent child beforeChild w3 pn c2 Hp3 Hc3 Htruthy)
    as Hplace.
  rewrite decide_False in Hplace by done. cbv zeta in Hplace.
  set (w4 := with_nodes _ w3) in Hplace.
  assert (Hp4 : w_nodes w4 !! parent = Some (set_children (n_children pn ++ [child]) pn)).
  { unfold w4. simpl. by rewrite lookup_insert_eq. }
  assert (Hc4 : w_nodes w4 !! child = Some (set_parent (Some parent) c2)).
  { unfold w4. simpl. rewrite lookup_insert_ne by done. by rewrite lookup_insert_eq. }
  pose proof (attach_plain_spec parent child _ _ slot lp l op o w4 Hp4 Hc4 Ha2 Hslot
                Hpo eq_refl Hne Hlp Hl) as Hattached.
  rewrite Hattached in Hplace.
  eexists _, (set_parent (Some parent) c2). split_and!.
  - unfold insertNode. erewrite bind_ret_eq; [|unfold getNode; rewrite Hc; reflexivity].
    rewrite Hobj. simpl negb. cbv iota.
    erewrite bind_ret_eq; [exact Hplace|].
    unfold commit.
    erewrite bind_ret_eq; [|exact Hinst].
    erewrite bind_ret_eq; [|exact Hauto].
    exact Hinit.
  - simpl. rewrite lookup_insert_eq. by rewrite obj_get_set.
  - simpl. rewrite lookup_insert_ne by done. rewrite lookup_insert_eq.
    by rewrite obj_get_set.
  - exact Hc4.
  - reflexivity.
  - exact Ha2.
  - simpl. by rewrite <- app_assoc.
Qed.

End AutoAttach.

Lemma insertNode_auto_attaches_witness :
  exists w' cn',
    insertNode Three.lib RevB 0 1 None geometry_created = Ret () w' /\
    get (w_heap w') (VRef 0) "geometry" = inr (VRef 3) /\
    get (w_heap w') (VRef 3) "__previousAttach" = inr VUndef /\
    w_nodes w' !! 1 = Some cn' /\
    n_object cn' = VRef 3 /\
    prop_get (n_props cn') "attach" = VStr "geometry" /\
    w_log w' = w_log geometry_created ++ [EvNew 1 Three.BufferGeometry []; EvInitialProps 1].
Proof.
  refine (insertNode_auto_attaches Three.lib RevB 0 1 None geometry_created
           (Node "" None [] (VRef 0) [])
           (Node "bufferGeometry" None [] VNull [("args", VRef 2)])
           Three.BufferGeometry [] 3
           (<[3 := Obj Three.BufferGeometry {["x" := VUndef; "y" := VUndef]} None]>
              (w_heap geometry_created))
           (Obj Three.BufferGeometry {["x" := VUndef; "y" := VUndef]} None)
           0
           (Obj Three.Object3D {["parent" := VNull; "children" := VRef 1]} None)
           _ _ _ _ _ _ _ _ _ _ _ _ _ _ _);
    try (vm_compute; reflexivity); try discriminate.
  - repeat constructor.
  - left. vm_compute. set_solver.
Defined.

(** ** Attaching into an array slot *)

Lemma includes_app_dash c k i : Str.includes c (k +:+ String c i) = true.
Proof.
  induction k as [|a k IH]; rewrite ?append_nil, ?append_cons; simpl.
  - by rewrite Ascii.eqb_refl.
  - by destruct (Ascii.eqb a c).
Qed.

Lemma split_index_path k i :
  Str.includes Str.dash k = false -> Str.is_number i = true ->
  Str.split Str.dash (k +:+ String Str.dash i) = [k; i].
Proof.
  intros Hk Hi. rewrite split_app_dash by by apply digits_no_dash, is_number_digits.
  by rewrite (split_plain _ _ Hk).
Qed.

Section ArraySlot.

Context (L : library).

(** The second half of [attach] on the path [k-i], once [k] of the
    parent's object holds an array: element [i] gets the child's object. *)
Lemma attach_into_array k i n lp lc la opp oa oc es w :
  Str.includes Str.dash k = false -> Str.is_number i = true ->
  Str.parse_index i = Some n ->
  lp <> lc -> la <> lp -> la <> lc ->
  w_heap w !! lp = Some opp -> obj_get opp k = VRef la ->
  w_heap w !! la = Some oa -> o_elems oa = Some es ->
  w_heap w !! lc = Some oc ->
  has (w_heap w) (default VUndef (es !! n)) "set" = false ->
  (r <- readH (fun h => resolve h (VRef lp) (k +:+ String Str.dash i)) ;;
   prev <- readH (fun h => get h (r_root r) (r_key r)) ;;
   writeH (fun h => put h (VRef lc) "__previousAttach" prev) ;;;
   writeH (fun h => put h (r_root r) (r_key r) (VRef lc))) w
  = Ret () (with_heap
              (<[la := Obj (o_class oa) (o_fields oa) (Some (set_elem es n (VRef lc)))]>
                 (<[lc := obj_set oc "__previousAttach" (default VUndef (es !! n))]>
                    (w_heap w))) w).
Proof.
  intros Hk Hi Hn Hpc Hap Hac Hlp Hslot Hla Hes Hlc Hset.
  assert (Helem : obj_get oa i = default VUndef (es !! n)).
  { unfold obj_get. by rewrite Hes, Hn. }
  assert (Hres : resolve (w_heap w) (VRef lp) (k +:+ String Str.dash i)
                 = inr (Resolved (VRef la) i (default VUndef (es !! n)))).
  { assert (G0 : forall key, get (w_heap w) (VRef lp) key = inr (obj_get opp key))
      by (intros key; cbn [get]; by rewrite Hlp).
    assert (G2 : get (w_heap w) (VRef la) i = inr (default VUndef (es !! n)))
      by (cbn [get]; by rewrite Hla, Helem).
    unfold resolve. rewrite G0, includes_app_dash. cbn [negb].
    rewrite (split_index_path k i Hk Hi). cbn [walk removelast List.last].
    rewrite G0, Hslot, G2, Hset. reflexivity. }
  erewrite bind_ret_eq; [|unfold readH; rewrite Hres; reflexivity].
  cbn [r_root r_key].
  erewrite bind_ret_eq; [|unfold readH; cbn [get]; rewrite Hla, Helem; reflexivity].
  erewrite bind_ret_eq; [|unfold writeH; cbn [put]; rewrite Hlc; reflexivity].
  unfold writeH. cbn [put w_heap with_heap].
  rewrite lookup_insert_ne by done. rewrite Hla.
  unfold obj_set at 1. by rewrite Hes, Hn.
Qed.

(** X14.  Attaching at the path [k-i] ([k] without separator, [i] an
    index): if [k] of the parent's object holds no array, a new empty
    array is stored there first; then element [i] of the array gets the
    child's object (an existing array is kept and its other elements
    with it), and the child's object remembers what element [i] held.
    Stated for an element [i] that has no settor. *)
Theorem attach_index_slot parent child pn cn k i n lp lc op oc la es w :
  w_nodes w !! parent = Some pn ->
  w_nodes w !! child = Some cn ->
  prop_get (n_props cn) "attach" = VStr (k +:+ String Str.dash i) ->
  Str.includes Str.dash k = false -> Str.is_number i = true ->
  Str.parse_index i = Some n ->
  n_object pn = VRef lp -> n_object cn = VRef lc -> lp <> lc ->
  w_heap w !! lp = Some op -> w_heap w !! lc = Some oc ->
  (isArray (w_heap w) (obj_get op k) = false /\
   la = fresh (dom (w_heap w)) /\ es = [])
  \/ (exists oa, obj_get op k = VRef la /\ w_heap w !! la = Some oa /\
                 o_elems oa = Some es /\ la <> lp /\ la <> lc /\
                 has (w_heap w) (default VUndef (es !! n)) "set" = false) ->
  exists w',
    attach L parent child w = Ret () w' /\
    get (w_heap w') (VRef lp) k = inr (VRef la) /\
    spread (w_heap w') (VRef la) = inr (set_elem es n (VRef lc)) /\
    get (w_heap w') (VRef lc) "__previousAttach" = inr (default VUndef (es !! n)) /\
    w_log w' = w_log w.
Proof.
  intros Hp Hc Ha Hk Hi Hn Hpo Hco Hpc Hlp Hlc Hcase.
  assert (Hmatch : index_match (k +:+ String Str.dash i) = Some k).
  { unfold index_match. rewrite (split_index_path k i Hk Hi). simpl. by rewrite Hi. }
  assert (Hplain : resolve (w_heap w) (VRef lp) k = inr (Resolved (VRef lp) k (obj_get op k))).
  { apply resolve_plain; [done|]. simpl. by rewrite Hlp. }
  unfold attach.
  erewrite bind_ret_eq; [|unfold getNode; rewrite Hp; reflexivity].
  erewrite bind_ret_eq; [|unfold getNode; rewrite Hc; reflexivity].
  rewrite Ha, Hpo, Hco. unfold INDEX_REGEX_test, INDEX_REGEX_strip. rewrite Hmatch.
  destruct Hcase as [(Hnot & -> & ->)|(oa & Hslot & Hla & Hes & Hap & Hac & Hset)].
  - set (la := fresh (dom (w_heap w))).
    assert (Hfresh : w_heap w !! la = None) by apply not_elem_of_dom, is_fresh.
    assert (Hap : la <> lp) by (intros ->; congruence).
    assert (Hac : la <> lc) by (intros ->; congruence).
    set (hp := <[lp := obj_set op k (VRef la)]> (<[la := array []]> (w_heap w))).
    erewrite (bind_ret_eq _ _ w () (with_heap hp w)).
    2: { erewrite bind_ret_eq; [|unfold readH; rewrite Hplain; reflexivity].
         cbn [r_root r_key].
         erewrite bind_ret_eq; [|unfold readH; cbn [get]; rewrite Hlp; reflexivity].
         erewrite bind_ret_eq; [|reflexivity].
         rewrite Hnot. cbn [negb].
         erewrite bind_ret_eq; [|reflexivity]. fold la.
         unfold writeH. cbn [put w_heap with_heap].
         rewrite lookup_insert_ne by done. rewrite Hlp. reflexivity. }
    cbv beta.
    rewrite (attach_into_array k i n lp lc la (obj_set op k (VRef la)) (array []) oc []
               (with_heap hp w) Hk Hi Hn Hpc Hap Hac).
    + eexists. split; [reflexivity|]. cbn [w_heap with_heap w_log]. split_and!.
      * cbn [get]. rewrite !lookup_insert_ne by done. unfold hp.
        rewrite lookup_insert_eq. by rewrite obj_get_set.
      * cbn [spread]. by rewrite lookup_insert_eq.
      * cbn [get]. rewrite lookup_insert_ne by done. rewrite lookup_insert_eq.
        by rewrite obj_get_set.
      * done.
    + unfold hp. cbn [w_heap with_heap]. by rewrite lookup_insert_eq.
    + apply obj_get_set.
    + unfold hp. cbn [w_heap with_heap]. rewrite lookup_insert_ne by done.
      by rewrite lookup_insert_eq.
    + done.
    + unfold hp. cbn [w_heap with_heap]. by rewrite !lookup_insert_ne by done.
    + done.
  - assert (Harr : isArray (w_heap w) (obj_get op k) = true).
    { rewrite Hslot. unfold isArray. rewrite Hla, Hes. by apply bool_decide_eq_true_2. }
    erewrite (bind_ret_eq _ _ w () w).
    2: { erewrite bind_ret_eq; [|unfold readH; rewrite Hplain; reflexivity].
         cbn [r_root r_key].
         erewrite bind_ret_eq; [|unfold readH; cbn [get]; rewrite Hlp; reflexivity].
         erewrite bind_ret_eq; [|reflexivity].
         rewrite Harr. reflexivity. }
    cbv beta.
    rewrite (attach_into_array k i n lp lc la op oa oc es w Hk Hi Hn Hpc Hap Hac
               Hlp Hslot Hla Hes Hlc Hset).
    eexists. split; [reflexivity|]. cbn [w_heap with_heap w_log]. split_and!.
    + cbn [get]. rewrite !lookup_insert_ne by done. by rewrite Hlp, Hslot.
    + cbn [spread]. by rewrite lookup_insert_eq.
    + cbn [get]. rewrite lookup_insert_ne by done. rewrite lookup_insert_eq.
      by rewrite obj_get_set.
    + done.
Qed.

End ArraySlot.

Lemma attach_index_slot_witness :
  exists w',
    attach Three.lib 0 1 (slotted (VStr "points-2") (Obj Three.Material ∅ None))
      = Ret () w' /\
    get (w_heap w') (VRef 0) "points" = inr (VRef 3) /\
    spread (w_heap w') (VRef 3) = inr (set_elem [] 2 (VRef 2)) /\
    get (w_heap w') (VRef 2) "__previousAttach" = inr (default VUndef ([] !! 2)) /\
    w_log w' = w_log (slotted (VStr "points-2") (Obj Three.Material ∅ None)).
Proof.
  refine (attach_index_slot Three.lib 0 1
            (Node "mesh" None [] (VRef 0) [])
            (Node "child" None [] (VRef 2) [("attach", VStr "points-2")])
            "points" "2" 2 0 2
            (plain {["slot" := VNum 7]}) (Obj Three.Material ∅ None) 3 []
            (slotted (VStr "points-2") (Obj Three.Material ∅ None))
            _ _ _ _ _ _ _ _ _ _ _ _);
    try (vm_compute; reflexivity); try discriminate.
  left. split_and!; vm_compute; reflexivity.
Defined.

(** ** Placement through the scene graph *)

Section GraphPlacement.

Context (L : library).

(** The world once the nodes are linked. *)
Lemma place_linked rev parent child beforeChild w pn cn :
  w_nodes w !! parent = Some pn ->
  w_nodes w !! child = Some cn ->
  parent <> child ->
  truthy (prop_get (n_props cn) "attach") = false ->
  let w2 := with_nodes (<[parent := set_children (n_children pn ++ [child]) pn]>
                          (<[child := set_parent (Some parent) cn]> (w_nodes w))) w in
  place L rev parent child beforeChild w =
    (if graph_linked rev (w_heap w) (n_object pn) (n_object cn) then
       match rev, beforeChild with
       | RevA, Some b =>
           writeH (fun h => put h (n_object cn) "parent" (n_object pn)) ;;;
           es <- readH (fun h => graphChildren h (n_object pn)) ;;
           bn <- getNode b ;;
           writeH (fun h => setGraphChildren h (n_object pn)
                              (splice_insert (length es - 1) (n_object cn) es)) ;;;
           callMethod L (n_object cn) "dispatchEvent" [VStr "added"] ;;; ret ()
       | RevA, None => callMethod L (n_object pn) "add" [n_object cn] ;;; ret ()
       | RevB, _ =>
           bobj <- (match beforeChild with
                    | Some b => bn <- getNode b ;; ret (n_object bn)
                    | None => ret VUndef
                    end) ;;
           es <- readH (fun h => graphChildren h (n_object pn)) ;;
           match indexOf bobj es with
           | Some objectIndex =>
               (match beforeChild with
                | Some b => removeNode L rev parent b
                | None => throw TypeError
                end) ;;;
               writeH (fun h => put h (n_object cn) "parent" (n_object pn)) ;;;
               es <- readH (fun h => graphChildren h (n_object pn)) ;;
               writeH (fun h => setGraphChildren h (n_object pn)
                                  (splice_insert objectIndex (n_object cn) es)) ;;;
               callMethod L (n_object cn) "dispatchEvent" [VStr "added"] ;;; ret ()
           | None => callMethod L (n_object pn) "add" [n_object cn] ;;; ret ()
           end
       end
     else ret ()) w2.
Proof.
  intros Hp Hc Hne Ha w2. unfold place.
  set (w1 := with_nodes (<[child := set_parent (Some parent) cn]> (w_nodes w)) w).
  assert (Hp1 : w_nodes w1 !! parent = Some pn).
  { unfold w1. simpl. by rewrite lookup_insert_ne. }
  erewrite bind_ret_eq; [|unfold modNode; rewrite Hc; reflexivity].
  fold w1.
  erewrite bind_ret_eq; [|unfold getNode; rewrite Hp1; reflexivity].
  erewrite (bind_ret_eq _ _ w1 () w2); [|unfold modNode; rewrite Hp1; reflexivity].
  assert (Hp2 : w_nodes w2 !! parent = Some (set_children (n_children pn ++ [child]) pn)).
  { unfold w2. simpl. by rewrite lookup_insert_eq. }
  assert (Hc2 : w_nodes w2 !! child = Some (set_parent (Some parent) cn)).
  { unfold w2. simpl. rewrite lookup_insert_ne by done. by rewrite lookup_insert_eq. }
  erewrite bind_ret_eq; [|unfold getNode; rewrite Hp2; reflexivity].
  erewrite bind_ret_eq; [|unfold getNode; rewrite Hc2; reflexivity].
  cbn [n_props n_object set_parent set_children]. rewrite Ha.
  erewrite bind_ret_eq; [|reflexivity].
  erewrite bind_ret_eq; [|reflexivity].
  change (w_heap w2) with (w_heap w).
  unfold graph_linked.
  destruct rev.
  - destruct (instanceOf (w_heap w) (n_object cn) "Object3D"); [|done].
    by destruct beforeChild.
  - by destruct (instanceOf (w_heap w) (n_object pn) "Object3D" &&
                 instanceOf (w_heap w) (n_object cn) "Object3D").
Qed.

(** X15.  A committed child that declares no attachment and is not linked
    through the scene graph (its object is no [Object3D], or for the later
    revision the parent's is not) is linked in the tree and nothing else:
    the insert returns, the heap and the log are as they were. *)
Theorem insertNode_outside_graph rev parent child beforeChild w pn cn :
  w_nodes w !! parent = Some pn ->
  w_nodes w !! child = Some cn ->
  parent <> child ->
  truthy (n_object cn) = true ->
  truthy (prop_get (n_props cn) "attach") = false ->
  graph_linked rev (w_heap w) (n_object pn) (n_object cn) = false ->
  insertNode L rev parent child beforeChild w =
    Ret () (with_nodes (<[parent := set_children (n_children pn ++ [child]) pn]>
                          (<[child := set_parent (Some parent) cn]> (w_nodes w))) w).
Proof.
  intros Hp Hc Hne Hobj Ha Hg.
  rewrite (insertNode_committed L rev parent child beforeChild cn w Hc Hobj).
  rewrite (place_linked rev parent child beforeChild w pn cn Hp Hc Hne Ha).
  cbv zeta. by rewrite Hg.
Qed.

(** X16.  A committed child that declares no attachment and is linked
    through the scene graph, inserted with no [beforeChild]: after the
    tree links, the insert is the one call [parent.object.add(child.object)]
    (for the later revision provided [undefined] is not among the graph
    children of the parent's object). *)
Theorem insertNode_adds_to_graph rev parent child w pn cn es :
  w_nodes w !! parent = Some pn ->
  w_nodes w !! child = Some cn ->
  parent <> child ->
  truthy (n_object cn) = true ->
  truthy (prop_get (n_props cn) "attach") = false ->
  graph_linked rev (w_heap w) (n_object pn) (n_object cn) = true ->
  (rev = RevB -> graphChildren (w_heap w) (n_object pn) = inr es /\ VUndef ∉ es) ->
  insertNode L rev parent child None w =
    (callMethod L (n_object pn) "add" [n_object cn] ;;; ret ())
      (with_nodes (<[parent := set_children (n_children pn ++ [child]) pn]>
                     (<[child := set_parent (Some parent) cn]> (w_nodes w))) w).
Proof.
  intros Hp Hc Hne Hobj Ha Hg Hes.
  rewrite (insertNode_committed L rev parent child None cn w Hc Hobj).
  rewrite (place_linked rev parent child None w pn cn Hp Hc Hne Ha).
  cbv zeta. rewrite Hg. destruct rev; [done|].
  destruct (Hes eq_refl) as [Hread Hnot].
  erewrite bind_ret_eq; [|reflexivity].
  erewrite bind_ret_eq; [|unfold readH; cbn [w_heap with_nodes]; rewrite Hread; reflexivity].
  by rewrite (indexOf_None _ _ Hnot).
Qed.

End GraphPlacement.

Lemma insertNode_outside_graph_witness :
  insertNode Three.lib RevB 0 1 None positioned_nodes =
    Ret () (with_nodes
              (<[0 := set_children (n_children (Node "mesh" None [] (VRef 0) []) ++ [1])
                        (Node "mesh" None [] (VRef 0) [])]>
                 (<[1 := set_parent (Some 0) (Node "vector2" None [] (VRef 2) [])]>
                    (w_nodes positioned_nodes))) positioned_nodes).
Proof.
  apply (insertNode_outside_graph Three.lib RevB 0 1 None positioned_nodes
           (Node "mesh" None [] (VRef 0) []) (Node "vector2" None [] (VRef 2) []));
    try (vm_compute; reflexivity).
  discriminate.
Defined.

Lemma insertNode_adds_to_graph_witness :
  insertNode Three.lib RevB 0 1 None regrafted =
    (callMethod Three.lib (n_object (Node "" None [] (VRef 0) []))
       "add" [n_object (Node "mesh" None [] (VRef 3) [("args", VRef 2)])] ;;; ret ())
      (with_nodes
         (<[0 := set_children (n_children (Node "" None [] (VRef 0) []) ++ [1])
                   (Node "" None [] (VRef 0) [])]>
            (<[1 := set_parent (Some 0) (Node "mesh" None [] (VRef 3) [("args", VRef 2)])]>
               (w_nodes regrafted))) regrafted).
Proof.
  apply (insertNode_adds_to_graph Three.lib RevB 0 1 regrafted
           (Node "" None [] (VRef 0) [])
           (Node "mesh" None [] (VRef 3) [("args", VRef 2)]) []);
    try (vm_compute; reflexivity).
  - discriminate.
  - intros _. split; [vm_compute; reflexivity|apply not_elem_of_nil].
Defined.

(** ** Deferred disposal (earlier revision) *)

Lemma keeps_idle_refl w : keeps_idle w w.
Proof. done. Qed.
Lemma keeps_idle_trans w1 w2 w3 : keeps_idle w1 w2 -> keeps_idle w2 w3 -> keeps_idle w1 w3.
Proof. unfold keeps_idle. congruence. Qed.
Lemma keeps_idle_heap w h : keeps_idle w (with_heap h w).
Proof. done. Qed.
Lemma keeps_idle_call w f this args :
  keeps_idle w (with_log (w_log w ++ [EvCall f this args]) w).
Proof. done. Qed.
Lemma keeps_idle_mod w n nd f :
  w_nodes w !! n = Some nd -> tidy f ->
  keeps_idle w (with_nodes (<[n := f nd]> (w_nodes w)) w).
Proof. done. Qed.

(** X17.  The earlier revision defers disposal: a [removeNode] that
    returns has appended the child to the queue of idle callbacks, once,
    unless the child is a primitive, in which case the queue is as it was;
    the type of the child being the only test. *)
Theorem removeNode_RevA_queues (L : library) parent child w w' cn :
  w_nodes w !! child = Some cn ->
  removeNode L RevA parent child w = Ret () w' ->
  w_idle w' = w_idle w ++ (if String.eqb (n_type cn) "primitive" then [] else [child]).
Proof.
  intros Hc Hrem. unfold removeNode in Hrem.
  apply bind_returns in Hrem as ([] & wa & Hunlink & Hrem).
  apply bind_returns in Hrem as ([] & wb & Hobj & Hdisp).
  pose proof keeps_idle_refl as H1. pose proof keeps_idle_trans as H2.
  pose proof keeps_idle_heap as H3. pose proof keeps_idle_call as H4.
  pose proof keeps_idle_mod as H5.
  pose proof (ok_unlinkChild keeps_idle H1 H2 H5 parent child w) as Ha.
  rewrite Hunlink in Ha.
  pose proof (ok_removeObject L keeps_idle H1 H2 H3 H4 RevA parent child wa) as Hb.
  rewrite Hobj in Hb.
  pose proof (ok_unlinkChild keeps_objects keeps_objects_refl keeps_objects_trans
                keeps_objects_mod parent child w) as Ka.
  rewrite Hunlink in Ka.
  pose proof (ok_removeObject L keeps_objects keeps_objects_refl keeps_objects_trans
                keeps_objects_heap keeps_objects_call RevA parent child wa) as Kb.
  rewrite Hobj in Kb.
  destruct (proj1 Ka child cn Hc) as (cna & Hca & _ & Hta).
  destruct (proj1 Kb child cna Hca) as (cnb & Hcb & _ & Htb).
  unfold disposeChild, bind, getNode in Hdisp. rewrite Hcb in Hdisp.
  unfold keeps_idle in Ha, Hb. rewrite <- Ha, <- Hb, <- Hta, <- Htb.
  destruct (String.eqb (n_type cnb) "primitive"); simpl in Hdisp.
  - injection Hdisp as <-. by rewrite app_nil_r.
  - by injection Hdisp as <-.
Qed.

Lemma removeNode_RevA_queues_witness :
  w_idle (exec (removeNode Three.lib RevA 0 1) (grid RevA false))
  = w_idle (grid RevA false)
    ++ (if String.eqb (n_type (Node "gridHelper" (Some 0) [] (VRef 3) [("args", VRef 2)]))
                      "primitive" then [] else [1]).
Proof.
  apply (removeNode_RevA_queues Three.lib 0 1 (grid RevA false)
           (exec (removeNode Three.lib RevA 0 1) (grid RevA false))
           (Node "gridHelper" (Some 0) [] (VRef 3) [("args", VRef 2)]));
    vm_compute; reflexivity.
Defined.

(** ** Insert and remove of an attached child *)

Section AttachedRoundTrip.

Context (L : library).

(** Detach on a path without separator, parent object and child object
    being two live objects: the slot gets what the child's object
    remembered, and the child's object forgets it. *)
Lemma detach_plain_spec parent child pn cn a lp lc op oc w :
  w_nodes w !! parent = Some pn ->
  w_nodes w !! child = Some cn ->
  prop_get (n_props cn) "attach" = VStr a ->
  Str.includes Str.dash a = false ->
  n_object pn = VRef lp -> n_object cn = VRef lc -> lp <> lc ->
  w_heap w !! lp = Some op -> w_heap w !! lc = Some oc ->
  detach L parent child w =
  Ret () (with_heap (<[lc := obj_delete oc "__previousAttach"]>
                       (<[lp := obj_set op a (obj_get oc "__previousAttach")]> (w_heap w)))
                    w).
Proof.
  intros Hp Hc Ha Hplain Hop Hoc Hne Hlp Hlc.
  unfold detach.
  erewrite bind_ret_eq; [|unfold getNode; rewrite Hp; reflexivity].
  erewrite bind_ret_eq; [|unfold getNode; rewrite Hc; reflexivity].
  rewrite Ha, Hop, Hoc.
  erewrite (bind_ret_eq _ _ w ()
              (with_heap (<[lp := obj_set op a (obj_get oc "__previousAttach")]> (w_heap w)) w)).
  2: { erewrite bind_ret_eq.
       2: { unfold readH.
            rewrite (resolve_plain (w_heap w) (VRef lp) a (obj_get op a) Hplain)
              by (simpl; by rewrite Hlp).
            reflexivity. }
       cbn [r_root r_key].
       erewrite bind_ret_eq; [|unfold readH; cbn [get]; rewrite Hlc; reflexivity].
       unfold writeH. cbn [put]. by rewrite Hlp. }
  unfold writeH. cbn [del w_heap with_heap].
  rewrite lookup_insert_ne by done. by rewrite Hlc.
Qed.

(** X18.  Inserting a committed child that declares a path without
    separator as its attachment, and removing it again, puts back in the
    slot of the parent's object what it held before the insert and leaves
    no bookkeeping on the child's object; no call is made.  (For the
    later revision: when the child is not disposed.) *)
Theorem insertNode_removeNode_restores_slot rev parent child beforeChild w
    pn cn a lp lc op oc :
  w_nodes w !! parent = Some pn ->
  w_nodes w !! child = Some cn ->
  parent <> child ->
  prop_get (n_props cn) "attach" = VStr a ->
  a <> "" ->
  Str.includes Str.dash a = false ->
  n_object pn = VRef lp -> n_object cn = VRef lc -> lp <> lc ->
  w_heap w !! lp = Some op -> w_heap w !! lc = Some oc ->
  rev = RevA \/ disposable cn = false ->
  exists w',
    (insertNode L rev parent child beforeChild ;;; removeNode L rev parent child) w
      = Ret () w' /\
    get (w_heap w') (VRef lp) a = get (w_heap w) (VRef lp) a /\
    (exists oc', w_heap w' !! lc = Some oc' /\
                 o_fields oc' !! "__previousAttach" = None) /\
    w_log w' = w_log w.
Proof.
  intros Hp Hc Hpc Ha Hne Hplain Hpo Hco Hll Hlp Hlc Hdisp.
  assert (Htruthy : truthy (prop_get (n_props cn) "attach") = true).
  { rewrite Ha. simpl. apply negb_true_iff.
    destruct (String.eqb a "") eqn:E; [|done]. by apply String.eqb_eq in E. }
  (* the insert *)
  set (p2 := set_children (n_children pn ++ [child]) pn).
  set (c2 := set_parent (Some parent) cn).
  set (w2 := with_nodes (<[parent := p2]> (<[child := c2]> (w_nodes w))) w).
  set (prev := obj_get op a).
  set (oc3 := obj_set oc "__previousAttach" prev).
  set (op3 := obj_set op a (VRef lc)).
  set (w3 := with_heap (<[lp := op3]> (<[lc := oc3]> (w_heap w))) w2).
  assert (Hp2 : w_nodes w2 !! parent = Some p2).
  { unfold w2. simpl. by rewrite lookup_insert_eq. }
  assert (Hc2 : w_nodes w2 !! child = Some c2).
  { unfold w2. simpl. rewrite lookup_insert_ne by done. by rewrite lookup_insert_eq. }
  assert (Hins : insertNode L rev parent child beforeChild w = Ret () w3).
  { rewrite (insertNode_committed L rev parent child beforeChild cn w Hc)
      by by rewrite Hco.
    rewrite (place_attached L rev parent child beforeChild w pn cn Hp Hc Htruthy).
    rewrite decide_False by done. cbv zeta. fold p2 c2 w2.
    exact (attach_plain_spec L parent child p2 c2 a lp lc op oc w2
             Hp2 Hc2 Ha Hplain Hpo Hco Hll Hlp Hlc). }
  (* the unlink *)
  destruct (unlinkChild_spec parent child p2 c2 w3 Hp2 Hc2)
    as (w4 & c4 & p4 & Hun & Hh4 & Hlog4 & Hc4 & _ & Hco4 & Hprops4 & Hty4 & Hp4 & _).
  pose proof (ok_unlinkChild keeps_objects keeps_objects_refl keeps_objects_trans
                keeps_objects_mod parent child w3) as Hk.
  rewrite Hun in Hk. destruct (proj1 Hk parent p2 Hp2) as (p4' & Hp4' & Hpo4 & _).
  rewrite Hp4 in Hp4'. injection Hp4' as <-.
  (* the detach *)
  assert (H4lp : w_heap w4 !! lp = Some op3).
  { rewrite Hh4. unfold w3. simpl. by rewrite lookup_insert_eq. }
  assert (H4lc : w_heap w4 !! lc = Some oc3).
  { rewrite Hh4. unfold w3. simpl. rewrite lookup_insert_ne by done.
    by rewrite lookup_insert_eq. }
  assert (Ha4 : prop_get (n_props c4) "attach" = VStr a) by by rewrite Hprops4.
  assert (Hpo4' : n_object p4 = VRef lp) by by rewrite Hpo4.
  assert (Hco4' : n_object c4 = VRef lc) by by rewrite Hco4.
  pose proof (detach_plain_spec parent child p4 c4 a lp lc op3 oc3 w4
                Hp4 Hc4 Ha4 Hplain Hpo4' Hco4' Hll H4lp H4lc) as Hdet.
  set (w5 := with_heap _ w4) in Hdet.
  assert (Hobj : removeObject L rev parent child w4 = Ret () w5).
  { unfold removeObject.
    erewrite bind_ret_eq; [|unfold getNode; rewrite Hp4; reflexivity].
    erewrite bind_ret_eq; [|unfold getNode; rewrite Hc4; reflexivity].
    rewrite Hprops4. change (n_props c2) with (n_props cn). by rewrite Htruthy. }
  (* the disposal *)
  assert (Hc5 : w_nodes w5 !! child = Some c4) by exact Hc4.
  assert (Hdis : exists w6, disposeChild L rev child w5 = Ret () w6 /\
                            w_heap w6 = w_heap w5 /\ w_log w6 = w_log w5).
  { unfold disposeChild.
    erewrite bind_ret_eq; [|unfold getNode; rewrite Hc5; reflexivity].
    destruct rev.
    - destruct (negb (String.eqb (n_type c4) "primitive")); eauto.
    - destruct Hdisp as [?|Hd]; [done|].
      assert (Hd4 : disposable c4 = false).
      { unfold disposable in *. by rewrite Hprops4, Hty4. }
      rewrite Hd4. eauto. }
  destruct Hdis as (w6 & Hdis & Hh6 & Hlog6).
  exists w6. split_and!.
  - erewrite bind_ret_eq; [|exact Hins].
    unfold removeNode.
    erewrite bind_ret_eq; [|exact Hun].
    erewrite bind_ret_eq; [|exact Hobj].
    exact Hdis.
  - rewrite Hh6. unfold w5. cbn [w_heap with_heap get].
    rewrite lookup_insert_ne by done. rewrite lookup_insert_eq, Hlp.
    unfold op3, oc3. by rewrite !obj_get_set.
  - rewrite Hh6. unfold w5. cbn [w_heap with_heap]. eexists.
    rewrite lookup_insert_eq. split; [done|]. simpl. apply lookup_delete_eq.
  - rewrite Hlog6. unfold w5. cbn [w_log with_heap]. rewrite Hlog4. reflexivity.
Qed.

End AttachedRoundTrip.

Lemma insertNode_removeNode_restores_slot_witness :
  exists w',
    (insertNode Three.lib RevA 0 1 None ;;; removeNode Three.lib RevA 0 1)
      (slotted (VStr "slot") (Obj Three.Material ∅ None)) = Ret () w' /\
    get (w_heap w') (VRef 0) "slot"
      = get (w_heap (slotted (VStr "slot") (Obj Three.Material ∅ None))) (VRef 0) "slot" /\
    (exists oc', w_heap w' !! 2 = Some oc' /\
                 o_fields oc' !! "__previousAttach" = None) /\
    w_log w' = w_log (slotted (VStr "slot") (Obj Three.Material ∅ None)).
Proof.
  refine (insertNode_removeNode_restores_slot Three.lib RevA 0 1 None
            (slotted (VStr "slot") (Obj Three.Material ∅ None))
            (Node "mesh" None [] (VRef 0) [])
            (Node "child" None [] (VRef 2) [("attach", VStr "slot")])
            "slot" 0 2 (plain {["slot" := VNum 7]}) (Obj Three.Material ∅ None)
            _ _ _ _ _ _ _ _ _ _ _ _);
    try (vm_compute; reflexivity); try discriminate.
  left; reflexivity.
Defined.
